(** * infra-cli-pipeline: a shallow embedding of the orchestration core

    The development follows the Python sources under [src/infra_cli]:

    - [PyStr]        Python [str] values (sequences of code points), [str.strip],
                     text-mode line iteration, [str.lower] on ASCII;
    - [Checkpoints]  [utils/checkpoints.py]  (class [CheckpointManager]);
    - [Clock]        [time.monotonic] / [time.sleep] as explicit state;
    - [Backoff]      [utils/backoff.py]      (function [retry]);
    - [RateLimiter]  [utils/rate_limiter.py] (class [RateLimiter]);
    - [Discover]     [stages/discover.py]    (function [discover]);
    - [Bench]        the p95 computation of [Pipeline.bench];
    - [Pipeline]     [pipeline.py]           (method [Pipeline.run]).

    The definitions of all modules come first; the properties follow in
    modules named after them ([CheckpointsFacts], [BackoffFacts], ...). *)

From Stdlib Require Import ZArith NArith QArith Qminmax Qpower Lqa Lia List String Ascii.
From Stdlib Require Import Sorting.Mergesort Sorting.Sorted Sorting.Permutation.
From Stdlib Require Import Floats.SpecFloat.
From stdpp Require Import base decidable countable gmap list.

Set Warnings "-register-all".

Local Open Scope Z_scope.

(* ===================================================================== *)
(** ** Python strings *)
(* ===================================================================== *)

Module PyStr.

(** A Python [str] is a sequence of Unicode code points. *)
Abbreviation str := (list N).

(** Reading a Rocq string literal as a [str] (one code point per byte;
    only used for ASCII literals). *)
Definition of_string (s : string) : str :=
  List.map N_of_ascii (list_ascii_of_string s).

Definition LF : N := 10%N.
Definition CR : N := 13%N.

(** [str.isspace] on one code point: the table of CPython's
    [_PyUnicode_IsWhitespace]. *)
Definition isspace (c : N) : bool :=
  ((9 <=? c) && (c <=? 13) || (28 <=? c) && (c <=? 32)
   || (c =? 133) || (c =? 160) || (c =? 5760)
   || (8192 <=? c) && (c <=? 8202)
   || (c =? 8232) || (c =? 8233) || (c =? 8239) || (c =? 8287)
   || (c =? 12288))%N.

Fixpoint lstrip (s : str) : str :=
  match s with
  | [] => []
  | c :: t => if isspace c then lstrip t else s
  end.

Definition rstrip (s : str) : str := rev (lstrip (rev s)).

(** [s.strip()] with no argument. *)
Definition strip (s : str) : str := rstrip (lstrip s).

(** Universal-newline translation done by a text-mode file opened for
    reading with the default [newline=None]: ["\r\n"] and a lone ["\r"]
    both become ["\n"]. *)
Fixpoint translate_newlines (s : str) : str :=
  match s with
  | [] => []
  | c :: t =>
      if (c =? CR)%N then
        LF :: match t with
              | [] => []
              | d :: t' => if (d =? LF)%N then translate_newlines t'
                           else translate_newlines t
              end
      else c :: translate_newlines t
  end.

(** Splitting translated text into lines; every line keeps its ["\n"],
    the last one may lack it. *)
Fixpoint split_lines (s : str) : list str :=
  match s with
  | [] => []
  | c :: t =>
      if (c =? LF)%N then [c] :: split_lines t
      else match split_lines t with
           | [] => [[c]]
           | l :: ls => (c :: l) :: ls
           end
  end.

(** [for line in f] on a file opened with [open("r", encoding="utf-8")]. *)
Definition file_lines (content : str) : list str :=
  split_lines (translate_newlines content).

(** [c.lower()] for an ASCII code point; other code points are left
    alone (no code point outside ASCII lowercases to an ASCII letter of
    the suffixes compared in this program). *)
Definition lower_char (c : N) : N :=
  if ((65 <=? c) && (c <=? 90))%N then (c + 32)%N else c.

Definition lower (s : str) : str := List.map lower_char s.

Definition is_hex_digit (c : N) : bool :=
  ((48 <=? c) && (c <=? 57) || (97 <=? c) && (c <=? 102)
   || (65 <=? c) && (c <=? 70))%N.

(** A fingerprint as [hashlib]'s [hexdigest] produces it: a non-empty
    string of hexadecimal digits. *)
Definition is_fingerprint (h : str) : bool :=
  negb (Nat.eqb (List.length h) 0) && forallb is_hex_digit h.

(** The text ends a line: it is empty or its last code point is a line
    terminator. *)
Definition terminated (s : str) : bool :=
  match rev s with
  | [] => true
  | c :: _ => (c =? LF)%N || (c =? CR)%N
  end.

(** The text is empty or ends with a line feed. *)
Definition ends_lf (s : str) : Prop := s = [] \/ exists b, s = b ++ [LF].

End PyStr.

(* ===================================================================== *)
(** ** utils/checkpoints.py *)
(* ===================================================================== *)

Module Checkpoints.
Import PyStr.

(** The ledger file on disk: [None] when the path does not exist. *)
Abbreviation disk := (option str).

(** The object state of a [CheckpointManager] that matters:
    [self.processed]. *)
Record CheckpointManager := mkCM { processed : gset str }.

(** Body of the load loop of [__init__]:
    [line = line.strip(); if line: self.processed.add(line)]. *)
Definition load_line (acc : gset str) (line : str) : gset str :=
  let line := strip line in
  match line with
  | [] => acc
  | _ => {[ line ]} ∪ acc
  end.

(** [CheckpointManager.__init__]. *)
Definition init (d : disk) : CheckpointManager :=
  match d with
  | None => mkCM ∅
  | Some content => mkCM (fold_left load_line (file_lines content) ∅)
  end.

(** [CheckpointManager.is_processed]. *)
Definition is_processed (cm : CheckpointManager) (file_hash : str) : bool :=
  bool_decide (file_hash ∈ processed cm).

(** Outcome of the operating system for one append: it succeeds, or it
    raises [OSError] after [n] code points reached the file. *)
Inductive io_outcome := IoOk | IoError (n : nat).

Inductive exn := OSError.

(** [with path.open("a") as f: f.write(data)]. *)
Definition append_text (d : disk) (data : str) (io : io_outcome)
  : (unit + exn) * disk :=
  let old := default [] d in
  match io with
  | IoOk => (inl tt, Some (old ++ data))
  | IoError n => (inr OSError, Some (old ++ take n data))
  end.

(** [CheckpointManager.mark_processed]; the lock is not modelled, calls
    are sequential. *)
Definition mark_processed (cm : CheckpointManager) (d : disk)
    (file_hash : str) (io : io_outcome)
  : (unit + exn) * CheckpointManager * disk :=
  if bool_decide (file_hash ∈ processed cm) then (inl tt, cm, d)
  else
    match append_text d (file_hash ++ [LF]) io with
    | (inl _, d') => (inl tt, mkCM ({[ file_hash ]} ∪ processed cm), d')
    | (inr e, d') => (inr e, cm, d')
    end.

(** Successive successful calls of [mark_processed]. *)
Definition mark_all (st : CheckpointManager * disk) (hs : list str)
  : CheckpointManager * disk :=
  fold_left (fun st h => let '(_, cm, d) := mark_processed st.1 st.2 h IoOk in (cm, d))
            hs st.

(** The ledger is absent, empty, or ends with a line terminator. *)
Definition well_terminated (d : disk) : bool :=
  match d with
  | None => true
  | Some content => terminated content
  end.


End Checkpoints.

(* ===================================================================== *)
(** ** The clock: time.monotonic and time.sleep as explicit state *)
(* ===================================================================== *)

Module Clock.

(** Seconds are rationals: float rounding of durations is idealised.
    [slept] logs every duration passed to [time.sleep]. *)
Record t := mk { now : Q; slept : list Q }.

Definition monotonic (w : t) : Q := now w.

(** [time.sleep(d)]: the clock advances by [d]. *)
Definition sleep (d : Q) (w : t) : t := mk (now w + d)%Q (slept w ++ [d]).


End Clock.

(* ===================================================================== *)
(** ** utils/backoff.py *)
(* ===================================================================== *)

Module Backoff.

Inductive outcome (A E : Type) := Return (v : A) | Raise (e : E).
Arguments Return {A E} v.
Arguments Raise {A E} e.

(** What a call of the wrapper can touch: the state of the wrapped
    operation, the clock, and the position in the stream of
    [random.random()] draws.  [calls] is a ghost counter of the
    invocations of the wrapped operation. *)
Record world (St : Type) :=
  mkWorld { op_state : St; calls : nat; clock : Clock.t; draws : nat }.
Arguments mkWorld {St}.
Arguments op_state {St}.
Arguments calls {St}.
Arguments clock {St}.
Arguments draws {St}.

Section Retry.
Context {Args A E St : Type}.
(** The wrapped operation: it returns a value or raises. *)
Variable func : Args -> St -> (A + E) * St.
Variable retries : Z.
Variable base_delay : Q.
(** [isinstance(exc, exceptions)]. *)
Variable retryable : E -> bool.
(** The successive values of [random.random()]. *)
Variable random : nat -> Q.

(** [random.uniform(a, b)] is [a + (b - a) * random()]. *)
Definition uniform (a b : Q) (w : world St) : Q * world St :=
  ((a + (b - a) * random (draws w))%Q,
   mkWorld (op_state w) (calls w) (clock w) (S (draws w))).

Definition sleep (d : Q) (w : world St) : world St :=
  mkWorld (op_state w) (calls w) (Clock.sleep d (clock w)) (draws w).

(** The [while True] loop of [wrapper]; [fuel] bounds the number of
    iterations, [None] means the bound was hit. *)
Fixpoint wrapper_loop (fuel : nat) (attempts : Z) (args : Args)
    (w : world St) : option (outcome A E * world St) :=
  match fuel with
  | O => None
  | S fuel' =>
      let '(r, s') := func args (op_state w) in
      let w1 := mkWorld s' (S (calls w)) (clock w) (draws w) in
      match r with
      | inl v => Some (Return v, w1)
      | inr exc =>
          if retryable exc then
            if attempts >=? retries then Some (Raise exc, w1)
            else
              let delay := (base_delay * 2 ^ attempts)%Q in
              let '(jitter, w2) := uniform 0 (Qmin (1 # 10) delay) w1 in
              let wait_time := (delay + jitter)%Q in
              wrapper_loop fuel' (attempts + 1) args (sleep wait_time w2)
          else Some (Raise exc, w1)
      end
  end.

(** Iterations that always suffice: one call plus [retries] retries. *)
Definition enough_fuel : nat := S (Z.to_nat retries).

(** [retry(func, ...)(args)]. *)
Definition wrapper (args : Args) (w : world St)
  : option (outcome A E * world St) :=
  wrapper_loop enough_fuel 0 args w.

(** The operation, called again and again from state [s], raises the
    retryable errors [es] in this order and ends in state [s']. *)
Fixpoint fails_with (args : Args) (s : St) (es : list E) (s' : St) : Prop :=
  match es with
  | [] => s = s'
  | e :: es' =>
      exists s1, func args s = (inr e, s1) /\ retryable e = true
                 /\ fails_with args s1 es' s'
  end.

End Retry.

End Backoff.

(* ===================================================================== *)
(** ** utils/rate_limiter.py *)
(* ===================================================================== *)

Module RateLimiter.

Record t := mk { rate : Q; capacity : Q; tokens : Q; last_checked : Q }.

Inductive exn := ValueError.

(** [RateLimiter.__init__]. *)
Definition init (rate_per_sec : Q) (cap : option Q) (w : Clock.t) : exn + t :=
  if Qle_bool rate_per_sec 0 then inl ValueError
  else
    let c := match cap with Some c => c | None => rate_per_sec end in
    inr (mk rate_per_sec c c (Clock.monotonic w)).

(** The three lines that recompute the bucket from the clock. *)
Definition refill (rl : t) (now : Q) : t :=
  let elapsed := (now - last_checked rl)%Q in
  mk (rate rl) (capacity rl)
     (Qmin (capacity rl) (tokens rl + elapsed * rate rl)%Q) now.

Definition sleep_time (rl : t) : Q := ((1 - tokens rl) / rate rl)%Q.

Definition consume (rl : t) : t :=
  mk (rate rl) (capacity rl) (tokens rl - 1)%Q (last_checked rl).

(** [RateLimiter.acquire] for a single caller. *)
Definition acquire (rl : t) (w : Clock.t) : t * Clock.t :=
  let rl1 := refill rl (Clock.monotonic w) in
  let '(rl2, w2) :=
    if Qlt_le_dec (tokens rl1) 1 then
      let w' := Clock.sleep (sleep_time rl1) w in
      (refill rl1 (Clock.monotonic w'), w')
    else (rl1, w) in
  (consume rl2, w2).




End RateLimiter.

(* ===================================================================== *)
(** ** stages/discover.py *)
(* ===================================================================== *)

Module Discover.
Import PyStr.

(** A [pathlib.Path] through its [parts]. *)
Abbreviation path := (list str).

(** The directory tree below the root. *)
Inductive entry := File (name : str) | Dir (name : str) (children : list entry).

(** What [input_dir] points at. *)
Inductive root_kind := Missing | NotADirectory | Directory (children : list entry).

Definition SUPPORTED_SUFFIXES : gset str :=
  {[ of_string ".pdf"; of_string ".txt" ]}.

Definition DOT : N := 46%N.

(** [part.startswith(".")]. *)
Definition startswith_dot (part : str) : bool :=
  match part with
  | c :: _ => (c =? DOT)%N
  | [] => false
  end.

(** [name.rfind(".")], [None] for -1. *)
Fixpoint rfind_dot (name : str) : option nat :=
  match name with
  | [] => None
  | c :: t =>
      match rfind_dot t with
      | Some i => Some (S i)
      | None => if (c =? DOT)%N then Some O else None
      end
  end.

(** [path.name]. *)
Definition name (p : path) : str := List.last p [].

(** [path.suffix]: [name[i:]] when [0 < i < len(name) - 1] for
    [i = name.rfind(".")], else the empty string. *)
Definition suffix (p : path) : str :=
  match rfind_dot (name p) with
  | Some i =>
      if (0 <? Z.of_nat i) && (Z.of_nat i <? Z.of_nat (List.length (name p)) - 1)
      then drop i (name p) else []
  | None => []
  end.

(** [root.rglob("*")]: every entry below [prefix], with [is_file()]. *)
Fixpoint rglob_entry (prefix : path) (e : entry) : list (path * bool) :=
  match e with
  | File n => [(prefix ++ [n], true)]
  | Dir n cs => (prefix ++ [n], false) :: flat_map (rglob_entry (prefix ++ [n])) cs
  end.

Definition rglob (root : path) (children : list entry) : list (path * bool) :=
  flat_map (rglob_entry root) children.

(** The two tests of the loop body. *)
Definition visible (p : path) : bool := negb (existsb startswith_dot p).

Definition supported (p : path) : bool :=
  bool_decide (lower (suffix p) ∈ SUPPORTED_SUFFIXES).

Definition selected (e : path * bool) : bool :=
  e.2 && visible e.1 && supported e.1.

(** [discover(input_dir)], as the list of the paths it yields. *)
Definition discover (root : path) (k : root_kind) : list path :=
  match k with
  | Missing | NotADirectory => []
  | Directory children => List.map fst (List.filter selected (rglob root children))
  end.

End Discover.

(* ===================================================================== *)
(** ** pipeline.py: the tail-latency computation of Pipeline.bench *)
(* ===================================================================== *)

Module Bench.

(** Python floats are IEEE-754 binary64 numbers. *)
Definition prec : Z := 53.
Definition emax : Z := 1024.

(** [float(n)] for an integer [n]. *)
Definition float_of_int (n : Z) : spec_float := binary_normalize prec emax n 0 false.

(** The literal [0.95]: the binary64 number nearest to 95/100, that is
    8556839292003942 * 2^-53. *)
Definition f0_95 : spec_float := S754_finite false 8556839292003942 (-53).

(** [x * y] on floats. *)
Definition float_mul (x y : spec_float) : spec_float := SFmul prec emax x y.

(** [int(x)]: truncation towards zero; [None] when Python raises (on an
    infinity or a NaN). *)
Definition int_of_float (x : spec_float) : option Z :=
  match x with
  | S754_zero _ => Some 0
  | S754_finite s m e =>
      let a := if e <? 0 then Z.pos m / 2 ^ (- e) else Z.pos m * 2 ^ e in
      Some (if s then - a else a)
  | S754_infinity _ | S754_nan => None
  end.

(** Latencies are differences of [time.perf_counter()] readings: finite
    floats, compared here through their rational values. *)
Definition Qlt_bool (a b : Q) : bool := negb (Qle_bool b a).

(** [sorted(latencies)]: a stable ascending sort. *)
Fixpoint insert (x : Q) (l : list Q) : list Q :=
  match l with
  | [] => [x]
  | y :: t => if Qle_bool x y then x :: l else y :: insert x t
  end.

Fixpoint sorted (l : list Q) : list Q :=
  match l with
  | [] => []
  | x :: t => insert x (sorted t)
  end.

(** [max(latencies)] on a non-empty list: the first maximal item. *)
Definition py_max (first : Q) (others : list Q) : Q :=
  fold_left (fun m y => if Qlt_bool m y then y else m) others first.

(** [int(0.95 * len(sorted_latencies)) - 1]. *)
Definition p95_index (len : Z) : option Z :=
  match int_of_float (float_mul f0_95 (float_of_int len)) with
  | Some i => Some (i - 1)
  | None => None
  end.

(** The value bound to [p95] at the end of [Pipeline.bench]; [None] when
    the computation raises. *)
Definition p95 (latencies : list Q) : option Q :=
  match latencies with
  | [] => Some 0%Q
  | first :: others =>
      if 20 <=? Z.of_nat (List.length latencies) then
        let sorted_latencies := sorted latencies in
        match p95_index (Z.of_nat (List.length sorted_latencies)) with
        | Some index => nth_error sorted_latencies (Z.to_nat (Z.max 0 index))
        | None => None
        end
      else Some (py_max first others)
  end.


(** [p95_index] agrees with [floor(19 * len / 20) - 1] at [len]. *)
Definition index_is_floor (len : Z) : bool :=
  match p95_index len with
  | Some i => i =? 19 * len / 20 - 1
  | None => false
  end.

(** [index_is_floor] at the [k] lengths from [start] on. *)
Fixpoint index_is_floor_from (k : nat) (start : Z) : bool :=
  match k with
  | O => true
  | S k' => index_is_floor start && index_is_floor_from k' (start + 1)
  end.


(** The sample counts for which the index computation was evaluated. *)
Definition checked_counts : Z := 20000.

End Bench.

(* ===================================================================== *)
(** ** pipeline.py: Pipeline.run *)
(* ===================================================================== *)

Module Pipeline.
Import PyStr.

(** The part of [Config] the orchestrator reads. *)
Record Config := mkConfig {
  rate_limit_per_sec : Q;
  retries : Z;
  base_delay : Q }.

(** One line of the output file: [{"id": ..., "path": ..., **classification}]. *)
Record record (Path Cls : Type) := mkRecord {
  id : str;
  path : Path;
  classification : Cls }.
Arguments mkRecord {Path Cls}.
Arguments id {Path Cls}.
Arguments path {Path Cls}.
Arguments classification {Path Cls}.

(** The orchestrator and the files it owns.  [main] gathers the state
    of the classifier, the clock and the random stream of the main
    process; [files_processed] and [errors_total] are the metrics. *)
Record state (Path Cls Sc : Type) := mkState {
  checkpoints : Checkpoints.CheckpointManager;
  ledger : Checkpoints.disk;
  output : list (record Path Cls);
  rate_limiter : RateLimiter.t;
  main : Backoff.world Sc;
  submitted : nat;
  files_processed : nat;
  errors_total : nat }.
Arguments mkState {Path Cls Sc}.
Arguments checkpoints {Path Cls Sc}.
Arguments ledger {Path Cls Sc}.
Arguments output {Path Cls Sc}.
Arguments rate_limiter {Path Cls Sc}.
Arguments main {Path Cls Sc}.
Arguments submitted {Path Cls Sc}.
Arguments files_processed {Path Cls Sc}.
Arguments errors_total {Path Cls Sc}.

Section Run.
Context {Path Text Cls E Sc Sp : Type}.
Variable config : Config.
(** [hashing.hash_file]: the digest of the file's bytes, or an I/O error. *)
Variable hash_file : Path -> str + E.
(** [parse.parse_file], run in a pool worker whose state starts at
    [worker_state]. *)
Variable parse_file : Path -> Sp -> (Text + E) * Sp.
Variable worker_state : Sp.
Variable worker_random : nat -> Q.
(** [self.classifier.classify], run in the main process. *)
Variable classify : Text -> Sc -> (Cls + E) * Sc.
Variable random : nat -> Q.
(** Whether [write.write_result] succeeds for the record of a path (a
    failed write leaves the output file as it was). *)
Variable write_ok : Path -> bool.
(** The outcome of the ledger append for the fingerprint of a path. *)
Variable mark_io : Path -> Checkpoints.io_outcome.

(** A submitted task: [futures[future] = (path, file_hash)] together with
    what [future.result()] gives. *)
Definition task : Type := Path * str * Backoff.outcome Text E.

(** The order in which the futures complete. *)
Variable as_completed : list task -> list task.

(** [retry] is given no [exceptions] argument: every [Exception] is
    retried. *)
Definition retryable (_ : E) : bool := true.

(** [self.parse_with_retry(path)] inside a worker process. *)
Definition parse_with_retry (p : Path) : option (Backoff.outcome Text E) :=
  match Backoff.wrapper parse_file (retries config) (base_delay config)
          retryable worker_random p
          (Backoff.mkWorld worker_state O (Clock.mk 0%Q []) O) with
  | Some (r, _) => Some r
  | None => None
  end.

(** [self.classify_with_retry(text)]. *)
Definition classify_with_retry (text : Text) (w : Backoff.world Sc)
  : option (Backoff.outcome Cls E * Backoff.world Sc) :=
  Backoff.wrapper classify (retries config) (base_delay config)
    retryable random text w.

(** [Pipeline.__init__] against the files on disk. *)
Definition new (d : Checkpoints.disk) (out : list (record Path Cls))
    (classifier : Sc) (w : Clock.t) : RateLimiter.exn + state Path Cls Sc :=
  match RateLimiter.init (rate_limit_per_sec config)
          (Some (rate_limit_per_sec config)) w with
  | inl e => inl e
  | inr rl =>
      inr (mkState (Checkpoints.init d) d out rl
             (Backoff.mkWorld classifier O w O) O O O)
  end.

(** [self.rate_limiter.acquire()] followed by [submitted += 1]. *)
Definition throttle (st : state Path Cls Sc) : state Path Cls Sc :=
  let '(rl, w) := RateLimiter.acquire (rate_limiter st) (Backoff.clock (main st)) in
  mkState (checkpoints st) (ledger st) (output st) rl
    (Backoff.mkWorld (Backoff.op_state (main st)) (Backoff.calls (main st)) w
       (Backoff.draws (main st)))
    (S (submitted st)) (files_processed st) (errors_total st).

(** The submission loop.  An exception of [hash_file] leaves [run]. *)
Fixpoint submit (to_process : list Path) (st : state Path Cls Sc)
    (futures : list task) : option (E + state Path Cls Sc * list task) :=
  match to_process with
  | [] => Some (inr (st, futures))
  | p :: rest =>
      match hash_file p with
      | inr e => Some (inl e)
      | inl file_hash =>
          if Checkpoints.is_processed (checkpoints st) file_hash
          then submit rest st futures
          else
            match parse_with_retry p with
            | None => None
            | Some r => submit rest (throttle st) (futures ++ [(p, file_hash, r)])
            end
      end
  end.

(** The [except Exception] branch of the collection loop. *)
Definition failed (st : state Path Cls Sc) (w : Backoff.world Sc)
  : state Path Cls Sc :=
  mkState (checkpoints st) (ledger st) (output st) (rate_limiter st) w
    (submitted st) (files_processed st) (S (errors_total st)).

(** One iteration of the collection loop. *)
Definition collect_one (st : state Path Cls Sc) (t : task)
  : option (state Path Cls Sc) :=
  let '(p, file_hash, fut) := t in
  match fut with
  | Backoff.Raise _ => Some (failed st (main st))
  | Backoff.Return text =>
      match classify_with_retry text (main st) with
      | None => None
      | Some (Backoff.Raise _, w) => Some (failed st w)
      | Some (Backoff.Return classification_result, w) =>
          if write_ok p then
            let out := output st ++ [mkRecord file_hash p classification_result] in
            match Checkpoints.mark_processed (checkpoints st) (ledger st)
                    file_hash (mark_io p) with
            | (inl _, cm, d) =>
                Some (mkState cm d out (rate_limiter st) w (submitted st)
                        (S (files_processed st)) (errors_total st))
            | (inr _, cm, d) =>
                Some (mkState cm d out (rate_limiter st) w (submitted st)
                        (files_processed st) (S (errors_total st)))
            end
          else Some (failed st w)
      end
  end.

(** Two states with the same durable files and the same metrics. *)
Definition same_files (st st' : state Path Cls Sc) : Prop :=
  checkpoints st' = checkpoints st /\ ledger st' = ledger st
  /\ output st' = output st /\ errors_total st' = errors_total st
  /\ files_processed st' = files_processed st.

(** The collection loop, over the futures in completion order. *)
Fixpoint collect (st : state Path Cls Sc) (ts : list task)
  : option (state Path Cls Sc) :=
  match ts with
  | [] => Some st
  | t :: rest =>
      match collect_one st t with
      | None => None
      | Some st' => collect st' rest
      end
  end.

(** [Pipeline.run] on the candidates [list(discover(input_dir))]. *)
Definition run (to_process : list Path) (st : state Path Cls Sc)
  : option (E + state Path Cls Sc) :=
  match submit to_process st [] with
  | None => None
  | Some (inl e) => Some (inl e)
  | Some (inr (st1, futures)) =>
      match collect st1 (as_completed futures) with
      | None => None
      | Some st2 => Some (inr st2)
      end
  end.

End Run.

End Pipeline.

(* ===================================================================== *)
(** ** Small concrete instances, used to run the definitions *)
(* ===================================================================== *)

Module Examples.
Import PyStr.

(** An operation that raises on its first two calls and then returns 42;
    its state counts the calls. *)
Definition flaky (_ : unit) (s : nat) : (nat + nat) * nat :=
  (if (s <? 2)%nat then inr s else inl 42%nat, S s).


Definition every_error (_ : nat) : bool := true.
Definition no_jitter (_ : nat) : Q := 0%Q.

Definition fresh_world : Backoff.world nat :=
  Backoff.mkWorld O O (Clock.mk 0%Q []) O.

(** A pipeline over two files, named by the booleans; a text is reduced
    to its number of words and a classification to its label. *)
Definition config : Pipeline.Config := Pipeline.mkConfig 10%Q 1 (1 # 10)%Q.

Definition hash_file (p : bool) : str + unit :=
  inl (if p then of_string "aa" else of_string "bb").

Definition parse_file (p : bool) (s : unit) : (nat + unit) * unit :=
  (inl (if p then 8%nat else 60%nat), s).

(** The same, except that the second file cannot be parsed. *)
Definition parse_file_bad (p : bool) (s : unit) : (nat + unit) * unit :=
  (if p then inl 8%nat else inr tt, s).

Definition classify (words : nat) (s : unit) : (bool + unit) * unit :=
  (inl (words <? 50)%nat, s).

Definition write_ok (_ : bool) : bool := true.
Definition mark_io (_ : bool) : Checkpoints.io_outcome := Checkpoints.IoOk.
Definition in_order (fs : list (@Pipeline.task bool nat unit)) := fs.

Definition run (l : list bool) (st : Pipeline.state bool bool unit) :=
  Pipeline.run config hash_file parse_file tt no_jitter classify no_jitter
    write_ok mark_io in_order l st.

(** The pipeline as constructed against a ledger and an output. *)
Definition constructed (d : Checkpoints.disk)
    (out : list (Pipeline.record bool bool)) : Pipeline.state bool bool unit :=
  Pipeline.mkState (Checkpoints.init d) d out (RateLimiter.mk 10 10 10 0)
    (Backoff.mkWorld tt O (Clock.mk 0%Q []) O) O O O.

(** The state a run ends in. *)
Definition after_run (l : list bool) (st : Pipeline.state bool bool unit)
  : Pipeline.state bool bool unit :=
  match run l st with
  | Some (inr st') => st'
  | _ => st
  end.


End Examples.

(* ===================================================================== *)
(** ** stages/classify.py *)
(* ===================================================================== *)

Module Classify.
Import PyStr.

(** [text.split()] with no argument: the scan keeps the current word
    (reversed) and emits it at the next whitespace or at the end. *)
Fixpoint split_from (word : str) (s : str) : list str :=
  match s with
  | [] => match word with [] => [] | _ => [rev word] end
  | c :: t =>
      if isspace c then
        match word with
        | [] => split_from [] t
        | _ => rev word :: split_from [] t
        end
      else split_from (c :: word) t
  end.

Definition split (text : str) : list str := split_from [] text.

(** [DummyClassifier], a dataclass with one field. *)
Record DummyClassifier := mkDummy { short_threshold : Z }.

Definition default_classifier : DummyClassifier := mkDummy 50.

(** The dictionary [{"label": label, "words": length}]. *)
Record classification := mkClassification { label : str; words : Z }.

(** [DummyClassifier.classify]. *)
Definition classify (self : DummyClassifier) (text : str) : classification :=
  let length := Z.of_nat (List.length (split text)) in
  mkClassification
    (if length <? short_threshold self then of_string "short" else of_string "long")
    length.

End Classify.

(* ===================================================================== *)
(** ** stages/write.py, with the record built in pipeline.py *)
(* ===================================================================== *)

Module Write.
Import PyStr.

(** The values the pipeline serialises: strings and integers. *)
Inductive json := JStr (s : str) | JInt (n : Z).

(** A [dict] with string keys, in insertion order. *)
Abbreviation dict := (list (str * json)).

(** [d[k]] as [d.get(k)]. *)
Fixpoint dict_get (d : dict) (k : str) : option json :=
  match d with
  | [] => None
  | (k', v) :: t => if bool_decide (k' = k) then Some v else dict_get t k
  end.

(** [d[k] = v]: an existing key keeps its position. *)
Fixpoint dict_set (d : dict) (k : str) (v : json) : dict :=
  match d with
  | [] => [(k, v)]
  | (k', v') :: t =>
      if bool_decide (k' = k) then (k', v) :: t else (k', v') :: dict_set t k v
  end.

(** [{**d, **src}]. *)
Definition dict_update (d src : dict) : dict :=
  fold_left (fun acc kv => dict_set acc kv.1 kv.2) src d.

(** [{"id": file_hash, "path": str(path), **classification_result}]. *)
Definition result_record (file_hash path : str) (classification_result : dict)
  : dict :=
  dict_update [(of_string "id", JStr file_hash); (of_string "path", JStr path)]
    classification_result.

(** The dictionary returned by [DummyClassifier.classify]. *)
Definition classification_dict (c : Classify.classification) : dict :=
  [(of_string "label", JStr (Classify.label c));
   (of_string "words", JInt (Classify.words c))].










End Write.

(* ===================================================================== *)
(** ** utils/hashing.py *)
(* ===================================================================== *)

Module Hashing.
Import PyStr.

Abbreviation bytes := (list Byte.byte).

Inductive exn := FileNotFoundError | ValueError.

(** [f.read(size)] on a binary file with [rest] left to read: [-1] reads
    everything, a smaller size is refused. *)
Definition read (size : Z) (rest : bytes) : option bytes :=
  if size =? -1 then Some rest
  else if size <? 0 then None
  else Some (take (Z.to_nat size) rest).

Section HashFile.
(** [hashlib]'s SHA-256: the fresh object, [update] and [hexdigest]. *)
Context {H : Type}.
Variable sha256 : H.
Variable update : H -> bytes -> H.
Variable hexdigest : H -> str.

(** The [while True] loop of [hash_file]; [fuel] bounds its iterations. *)
Fixpoint hash_loop (fuel : nat) (chunk_size : Z) (rest : bytes) (h : H)
  : option (exn + H) :=
  match fuel with
  | O => None
  | S fuel' =>
      match read chunk_size rest with
      | None => Some (inl ValueError)
      | Some [] => Some (inr h)
      | Some data =>
          hash_loop fuel' chunk_size (drop (List.length data) rest) (update h data)
      end
  end.

(** [hash_file(path, chunk_size)] on a file with the given content
    ([None] when the file does not exist). *)
Definition hash_file (content : option bytes) (chunk_size : Z) (fuel : nat)
  : option (exn + str) :=
  match content with
  | None => Some (inl FileNotFoundError)
  | Some data =>
      match hash_loop fuel chunk_size data sha256 with
      | None => None
      | Some (inl e) => Some (inl e)
      | Some (inr h) => Some (inr (hexdigest h))
      end
  end.

End HashFile.

End Hashing.

(* ===================================================================== *)
(** ** utils/config.py: the merge of configuration dictionaries *)
(* ===================================================================== *)

Module ConfigMerge.
Import PyStr.

(** A value loaded from YAML: a nested dictionary (keys in insertion
    order) or anything else. *)
Inductive value (A : Type) :=
| Scalar (a : A)
| Dict (items : list (str * value A)).
Arguments Scalar {A} a.
Arguments Dict {A} items.

Section Merge.
Context {A : Type}.

Abbreviation items := (list (str * value A)).

(** [d.get(k)]. *)
Fixpoint get (d : items) (k : str) : option (value A) :=
  match d with
  | [] => None
  | (k', v) :: t => if bool_decide (k' = k) then Some v else get t k
  end.

(** [d[k] = v]. *)
Fixpoint set (d : items) (k : str) (v : value A) : items :=
  match d with
  | [] => [(k, v)]
  | (k', v') :: t =>
      if bool_decide (k' = k) then (k', v) :: t else (k', v') :: set t k v
  end.

(** The value stored under a key by one iteration of the loop of
    [_deep_update]: when the new value and the current one are both
    dictionaries they are merged by the recursive call, otherwise the
    new value replaces the current one.  [old] is [result.get(key)]. *)
Fixpoint merged (old : option (value A)) (v : value A) {struct v} : value A :=
  match v with
  | Scalar _ => v
  | Dict sub =>
      match old with
      | Some (Dict old_items) =>
          Dict (fold_left
                  (fun result kv => set result kv.1 (merged (get result kv.1) kv.2))
                  sub old_items)
      | _ => v
      end
  end.

(** [_deep_update(dst, src)]: [result = dict(dst)], then the loop over
    [src.items()]. *)
Definition _deep_update (dst src : items) : items :=
  fold_left (fun result kv => set result kv.1 (merged (get result kv.1) kv.2))
    src dst.

End Merge.

End ConfigMerge.

(* ===================================================================== *)
(** ** More concrete instances *)
(* ===================================================================== *)

Module MoreExamples.
Import PyStr.

(** The outcome and the final world of the wrapper around
    [Examples.flaky], with three retries and a base delay of 0.2 s. *)
Definition flaky_run : Backoff.outcome nat nat * Backoff.world nat :=
  match Backoff.wrapper_loop Examples.flaky 3 (1 # 5) Examples.every_error
          Examples.no_jitter 4 0 tt Examples.fresh_world with
  | Some x => x
  | None => (Backoff.Raise O, Examples.fresh_world)
  end.

(** A file system on which the second file cannot be read. *)
Definition hash_file_bad (p : bool) : str + unit :=
  if p then inl (of_string "aa") else inr tt.

(** [Examples.run] with [hash_file_bad]. *)
Definition run_bad (l : list bool) (st : Pipeline.state bool bool unit) :=
  Pipeline.run Examples.config hash_file_bad Examples.parse_file tt
    Examples.no_jitter Examples.classify Examples.no_jitter Examples.write_ok
    Examples.mark_io Examples.in_order l st.

(** A pipeline constructed on an empty ledger and an empty output, and
    the state its run over both files ends in. *)
Definition start : Pipeline.state bool bool unit := Examples.constructed None [].
Definition finish : Pipeline.state bool bool unit :=
  Examples.after_run [true; false] start.

End MoreExamples.

(* ===================================================================== *)
(** * Properties *)
(* ===================================================================== *)

(** ** Facts about Python strings *)

Module PyStrFacts.
Import PyStr.

(** Turns boolean range tests on code points into arithmetic. *)
Ltac bool_arith H :=
  rewrite ?orb_true_iff, ?andb_true_iff, ?N.leb_le, ?N.eqb_eq in H.

Lemma hex_not_space c : is_hex_digit c = true -> isspace c = false.
Proof.
  intros H. apply not_true_is_false. intros Hs.
  unfold is_hex_digit in H. unfold isspace in Hs.
  bool_arith H. bool_arith Hs. lia.
Qed.

Lemma hex_not_newline c : is_hex_digit c = true -> c <> LF /\ c <> CR.
Proof.
  intros H. unfold is_hex_digit in H. unfold LF, CR. bool_arith H. lia.
Qed.

Lemma newline_is_space c : c = LF \/ c = CR -> isspace c = true.
Proof. intros [-> | ->]; reflexivity. Qed.

Lemma lstrip_head c t : isspace c = false -> lstrip (c :: t) = c :: t.
Proof. intros H. simpl. now rewrite H. Qed.

Lemma fingerprint_inv h :
  is_fingerprint h = true -> h <> [] /\ Forall (fun c => is_hex_digit c = true) h.
Proof.
  unfold is_fingerprint. rewrite andb_true_iff, negb_true_iff, Nat.eqb_neq.
  intros [Hlen Hall]. split.
  - intros ->. now apply Hlen.
  - now apply List.Forall_forall, List.forallb_forall.
Qed.

(** A fingerprint followed by a line feed strips back to the fingerprint. *)
Lemma strip_fingerprint_line h :
  is_fingerprint h = true -> strip (h ++ [LF]) = h.
Proof.
  intros Hf. destruct (fingerprint_inv h Hf) as [Hne Hall].
  unfold strip, rstrip.
  destruct h as [| c t]; [congruence |].
  assert (Hc : isspace c = false).
  { apply hex_not_space. now inversion Hall. }
  change ((c :: t) ++ [LF]) with (c :: (t ++ [LF])).
  rewrite lstrip_head by exact Hc.
  change (c :: (t ++ [LF])) with ((c :: t) ++ [LF]).
  rewrite rev_app_distr.
  change (rev [LF] ++ rev (c :: t)) with (LF :: rev (c :: t)).
  change (lstrip (LF :: rev (c :: t))) with (lstrip (rev (c :: t))).
  destruct (rev (c :: t)) as [| d r] eqn:Hr.
  - apply (f_equal (@List.length N)) in Hr. rewrite length_rev in Hr. discriminate.
  - assert (Hd : isspace d = false).
    { apply hex_not_space.
      assert (Hin : In d (c :: t)).
      { apply in_rev. rewrite Hr. now left. }
      rewrite List.Forall_forall in Hall. now apply Hall. }
    rewrite lstrip_head by exact Hd.
    rewrite <- Hr. now rewrite rev_involutive.
Qed.



(** When the second part does not start with a line feed the
    translation distributes. *)
Lemma translate_app_len n :
  forall a c s, (List.length a <= n)%nat -> c <> LF ->
    translate_newlines (a ++ c :: s)
    = translate_newlines a ++ translate_newlines (c :: s).
Proof.
  induction n as [| n IH]; intros a c s Hlen Hc.
  - destruct a; [reflexivity | simpl in Hlen; lia].
  - destruct a as [| x t]; [reflexivity |].
    simpl in Hlen.
    change ((x :: t) ++ c :: s) with (x :: (t ++ c :: s)).
    cbn [translate_newlines].
    destruct (x =? CR)%N.
    + destruct t as [| d t'].
      * cbn [app]. apply N.eqb_neq in Hc. rewrite Hc. reflexivity.
      * cbn [app]. simpl in Hlen. destruct (d =? LF)%N.
        -- rewrite (IH t' c s) by (lia || assumption). reflexivity.
        -- change (d :: t' ++ c :: s) with ((d :: t') ++ c :: s).
           rewrite (IH (d :: t') c s) by (simpl; lia || assumption).
           reflexivity.
    + rewrite (IH t c s) by (lia || assumption). reflexivity.
Qed.

Lemma translate_app a c s :
  c <> LF ->
  translate_newlines (a ++ c :: s)
  = translate_newlines a ++ translate_newlines (c :: s).
Proof. now apply (translate_app_len (List.length a)). Qed.

(** Text without carriage returns is left alone. *)
Lemma translate_no_cr s :
  Forall (fun c => c <> CR) s -> translate_newlines s = s.
Proof.
  induction 1 as [| c t Hc _ IH]; [reflexivity |].
  cbn [translate_newlines]. apply N.eqb_neq in Hc. rewrite Hc. now rewrite IH.
Qed.

Lemma terminated_cons c d t :
  terminated (c :: d :: t) = terminated (d :: t).
Proof.
  unfold terminated. cbn [rev].
  destruct (rev t ++ [d]) as [| x r] eqn:Hx; [now destruct (rev t) |].
  reflexivity.
Qed.

Lemma translate_terminated_len n :
  forall a, (List.length a <= n)%nat -> terminated a = true ->
    ends_lf (translate_newlines a).
Proof.
  induction n as [| n IH]; intros a Hlen Ht.
  - destruct a; [now left | simpl in Hlen; lia].
  - destruct a as [| c t]; [now left |]. right.
    simpl in Hlen. cbn [translate_newlines].
    destruct (c =? CR)%N eqn:Hc.
    + destruct t as [| d t']; [now exists [] |]. simpl in Hlen.
      rewrite terminated_cons in Ht.
      destruct (d =? LF)%N eqn:Hd.
      * destruct t' as [| e t'']; [now exists [] |].
        rewrite terminated_cons in Ht.
        destruct (IH (e :: t'') ltac:(simpl in *; lia) Ht) as [He | [b Hb]].
        -- rewrite He. now exists [].
        -- rewrite Hb. now exists (LF :: b).
      * destruct (IH (d :: t') ltac:(simpl; lia) Ht) as [He | [b Hb]].
        -- rewrite He. now exists [].
        -- rewrite Hb. now exists (LF :: b).
    + destruct t as [| d t'].
      * unfold terminated in Ht. cbn in Ht. rewrite Hc, orb_false_r in Ht.
        apply N.eqb_eq in Ht. subst c. now exists [].
      * rewrite terminated_cons in Ht.
        destruct (IH (d :: t') ltac:(simpl in *; lia) Ht) as [He | [b Hb]].
        -- exfalso. cbn [translate_newlines] in He.
           destruct (d =? CR)%N; discriminate.
        -- rewrite Hb. now exists (c :: b).
Qed.

Lemma translate_terminated a :
  terminated a = true -> ends_lf (translate_newlines a).
Proof. now apply (translate_terminated_len (List.length a)). Qed.

Lemma split_lines_nil s : split_lines s = [] -> s = [].
Proof.
  destruct s as [| c t]; [reflexivity |]. cbn [split_lines].
  destruct (c =? LF)%N; [discriminate |].
  destruct (split_lines t); discriminate.
Qed.

(** Lines are split independently after a line feed. *)
Lemma split_lines_app b s :
  split_lines ((b ++ [LF]) ++ s) = split_lines (b ++ [LF]) ++ split_lines s.
Proof.
  induction b as [| c t IH].
  - reflexivity.
  - cbn [app split_lines]. cbn [app] in IH.
    destruct (c =? LF)%N.
    + now rewrite IH.
    + rewrite IH.
      destruct (split_lines (t ++ [LF])) as [| l ls] eqn:Hl.
      * apply split_lines_nil in Hl. now destruct t.
      * reflexivity.
Qed.

Lemma split_lines_ends_lf a s :
  ends_lf a -> split_lines (a ++ s) = split_lines a ++ split_lines s.
Proof.
  intros [-> | [b ->]]; [reflexivity | apply split_lines_app].
Qed.

(** A line without an inner line feed is one line. *)
Lemma split_lines_single h :
  h <> [] -> Forall (fun c => c <> LF) h -> split_lines (h ++ [LF]) = [h ++ [LF]].
Proof.
  intros Hne Hall. induction Hall as [| c t Hc Hall IH]; [congruence |].
  cbn [app split_lines]. apply N.eqb_neq in Hc. rewrite Hc.
  destruct t as [| d t'].
  - reflexivity.
  - rewrite IH by discriminate. reflexivity.
Qed.


(** Appending a fingerprint line to terminated text adds exactly that
    line. *)
Lemma file_lines_append a h :
  terminated a = true -> is_fingerprint h = true ->
  file_lines (a ++ h ++ [LF]) = file_lines a ++ [h ++ [LF]].
Proof.
  intros Ht Hf. destruct (fingerprint_inv h Hf) as [Hne Hall].
  assert (Hnl : Forall (fun c => c <> LF /\ c <> CR) h).
  { eapply List.Forall_impl; [| exact Hall]. intros c. apply hex_not_newline. }
  unfold file_lines. destruct h as [| c t]; [congruence |].
  change ((c :: t) ++ [LF]) with (c :: (t ++ [LF])).
  rewrite translate_app by (inversion Hnl; tauto).
  rewrite split_lines_ends_lf by now apply translate_terminated.
  f_equal.
  change (c :: (t ++ [LF])) with ((c :: t) ++ [LF]).
  rewrite translate_no_cr.
  - apply split_lines_single; [discriminate |].
    eapply List.Forall_impl; [| exact Hnl]. intros ? [? ?]; assumption.
  - apply Forall_app. split.
    + eapply List.Forall_impl; [| exact Hnl]. intros ? [? ?]; assumption.
    + repeat constructor. discriminate.
Qed.

Lemma terminated_app_lf a h : terminated (a ++ h ++ [LF]) = true.
Proof.
  unfold terminated. rewrite app_assoc, rev_app_distr. reflexivity.
Qed.

End PyStrFacts.

(** ** utils/checkpoints.py *)

Module CheckpointsFacts.
Import PyStr PyStrFacts Checkpoints.

(** What the load loop leaves in the set. *)
Lemma load_lines_spec ls :
  forall (acc : gset str) (x : str),
    x ∈ fold_left load_line ls acc <->
    x ∈ acc \/ (x <> [] /\ exists line, In line ls /\ strip line = x).
Proof.
  induction ls as [| l ls IH]; intros acc x; cbn [fold_left].
  - split; [now left | intros [H | (_ & line & [] & _)]; exact H].
  - rewrite IH. unfold load_line. split.
    + intros [H | (Hne & line & Hin & Hs)].
      * destruct (strip l) as [| c t] eqn:Hl; [now left |].
        apply elem_of_union in H as [H | H]; [| now left].
        apply elem_of_singleton in H. subst x. right. split; [discriminate |].
        exists l. split; [now left | exact Hl].
      * right. split; [exact Hne |]. exists line. split; [now right | exact Hs].
    + intros [H | (Hne & line & [-> | Hin] & Hs)].
      * left. destruct (strip l); [exact H |]. apply elem_of_union. now right.
      * left. rewrite Hs. destruct x; [congruence |].
        apply elem_of_union. left. now apply elem_of_singleton.
      * right. split; [exact Hne |]. now exists line.
Qed.

Lemma init_spec content x :
  x ∈ processed (init (Some content)) <->
  x <> [] /\ exists line, In line (file_lines content) /\ strip line = x.
Proof.
  cbn [init processed]. rewrite load_lines_spec. split.
  - intros [H | H]; [set_solver | exact H].
  - now right.
Qed.

Lemma is_processed_true cm x : is_processed cm x = true <-> x ∈ processed cm.
Proof. unfold is_processed. apply bool_decide_eq_true. Qed.

Lemma is_processed_false cm x : is_processed cm x = false <-> x ∉ processed cm.
Proof. unfold is_processed. apply bool_decide_eq_false. Qed.

(** A successful [mark_processed], spelled out. *)
Lemma mark_processed_ok cm d h :
  mark_processed cm d h IoOk =
  if bool_decide (h ∈ processed cm) then (inl tt, cm, d)
  else (inl tt, mkCM ({[ h ]} ∪ processed cm), Some (default [] d ++ h ++ [LF])).
Proof. unfold mark_processed, append_text. now case_bool_decide. Qed.

Lemma well_terminated_default d :
  well_terminated d = true -> terminated (default [] d) = true.
Proof. now destruct d. Qed.





Lemma mark_processed_adds cm d h :
  h ∈ processed (mark_processed cm d h IoOk).1.2.
Proof.
  rewrite mark_processed_ok. case_bool_decide; [assumption |].
  cbn. set_solver.
Qed.

Lemma mark_all_snoc st hs h :
  mark_all st (hs ++ [h]) =
  let st' := mark_all st hs in
  ((mark_processed st'.1 st'.2 h IoOk).1.2, (mark_processed st'.1 st'.2 h IoOk).2).
Proof.
  unfold mark_all. rewrite fold_left_app. cbn [fold_left].
  now destruct (mark_processed _ _ h IoOk) as [[r cm] d].
Qed.







(** C10: when the append raises, the exception leaves [mark_processed]
    before the set is touched; the fingerprint is still unrecorded, and
    the next [mark_processed] of it appends again. *)
Theorem mark_processed_io_error cm (d : disk) (h : str) (n : nat) :
  is_processed cm h = false ->
  mark_processed cm d h (IoError n)
    = (inr OSError, cm, Some (default [] d ++ take n (h ++ [LF]))) /\
  forall d1,
    mark_processed cm d1 h IoOk
    = (inl tt, mkCM ({[ h ]} ∪ processed cm), Some (default [] d1 ++ h ++ [LF])).
Proof.
  intros Hn. apply is_processed_false in Hn. split.
  - unfold mark_processed, append_text. now case_bool_decide.
  - intros d1. rewrite mark_processed_ok. now case_bool_decide.
Qed.

Lemma mark_processed_io_error_witness :
  mark_processed (init None) None (of_string "ab") (IoError 1)
    = (inr OSError, init None, Some (default [] None ++ take 1 (of_string "ab" ++ [LF]))) /\
  forall d1,
    mark_processed (init None) d1 (of_string "ab") IoOk
    = (inl tt, mkCM ({[ of_string "ab" ]} ∪ processed (init None)),
       Some (default [] d1 ++ of_string "ab" ++ [LF])).
Proof.
  apply (mark_processed_io_error (init None) None (of_string "ab") 1).
  reflexivity.
Defined.

End CheckpointsFacts.

(** ** utils/backoff.py *)

Module BackoffFacts.
Import Backoff.

Section RetryFacts.
Context {Args A E St : Type}.
Variable func : Args -> St -> (A + E) * St.
Variable retries : Z.
Variable base_delay : Q.
Variable retryable : E -> bool.
Variable random : nat -> Q.

Local Abbreviation loop := (wrapper_loop func retries base_delay retryable random).
Local Abbreviation fails := (fails_with func retryable).



(** A failure that is not retryable leaves the wrapper at once, without
    sleeping. *)
Lemma loop_not_retryable fuel attempts args (w : world St) e s :
  func args (op_state w) = (inr e, s) -> retryable e = false ->
  loop (S fuel) attempts args w
  = Some (Raise e, mkWorld s (S (calls w)) (clock w) (draws w)).
Proof. intros Hcall Hr. cbn [wrapper_loop]. now rewrite Hcall, Hr. Qed.

(** The loop ends within [retries + 1] iterations whatever the operation
    does. *)
Lemma loop_total args :
  forall fuel attempts (w : world St),
    0 <= attempts ->
    (Z.to_nat (retries - attempts) < fuel)%nat ->
    exists r, loop fuel attempts args w = Some r.
Proof.
  induction fuel as [| fuel IH]; intros attempts w Ha Hfuel; [lia |].
  cbn [wrapper_loop].
  destruct (func args (op_state w)) as [[v | e] s]; [eauto |].
  destruct (retryable e); [| eauto].
  destruct (attempts >=? retries) eqn:Hge; [eauto |].
  rewrite Z.geb_leb in Hge. apply Z.leb_gt in Hge. cbn [uniform].
  apply IH; lia.
Qed.

Lemma wrapper_total args (w : world St) :
  exists r, wrapper func retries base_delay retryable random args w = Some r.
Proof. apply loop_total; unfold enough_fuel; lia. Qed.


End RetryFacts.


End BackoffFacts.

(** ** utils/rate_limiter.py *)

Module RateLimiterFacts.
Import RateLimiter.

Local Open Scope Q_scope.







(** C7 (as amended): construction raises exactly when the rate is not
    positive; the capacity is not validated.  With a positive rate the
    bucket starts full, with the given capacity, or with the rate as
    capacity when none is given. *)
Theorem init_checks_rate_only (rate_per_sec : Q) (cap : option Q) (w : Clock.t) :
  (rate_per_sec <= 0 -> init rate_per_sec cap w = inl ValueError) /\
  (0 < rate_per_sec ->
   init rate_per_sec cap w
   = inr (mk rate_per_sec (default rate_per_sec cap) (default rate_per_sec cap)
            (Clock.monotonic w))).
Proof.
  unfold init. split; intros H.
  - apply Qle_bool_iff in H. now rewrite H.
  - destruct (Qle_bool rate_per_sec 0) eqn:Hle.
    + apply Qle_bool_iff in Hle. lra.
    + now destruct cap.
Qed.

Lemma init_checks_rate_only_witness :
  init 0 (Some 3) (Clock.mk 0 []) = inl ValueError /\
  init 5 None (Clock.mk 0 []) = inr (mk 5 5 5 0).
Proof.
  split.
  - apply (init_checks_rate_only 0 (Some 3) (Clock.mk 0 [])). discriminate.
  - apply (init_checks_rate_only 5 None (Clock.mk 0 [])). reflexivity.
Defined.

(** C7 (as stated) fails: a non-positive capacity is accepted. *)
Lemma nonpositive_capacity_accepted :
  ~ (forall (rate_per_sec c : Q) (w : Clock.t),
       rate_per_sec <= 0 \/ c <= 0 ->
       init rate_per_sec (Some c) w = inl ValueError).
Proof.
  intros H. specialize (H 5 (-1 # 1) (Clock.mk 0 [])).
  assert (Hc : 5 <= 0 \/ -1 # 1 <= 0) by (right; discriminate).
  specialize (H Hc). discriminate.
Qed.



End RateLimiterFacts.

(** ** stages/discover.py *)

Module DiscoverFacts.
Import PyStr Discover.

Lemma visible_spec p :
  visible p = true <-> forall part, In part p -> startswith_dot part = false.
Proof.
  unfold visible. rewrite negb_true_iff. split.
  - intros H part Hin. destruct (startswith_dot part) eqn:Hd; [| reflexivity].
    assert (Hex : existsb startswith_dot p = true)
      by (apply existsb_exists; eauto).
    congruence.
  - intros H. destruct (existsb startswith_dot p) eqn:Hex; [| reflexivity].
    apply existsb_exists in Hex as (part & Hin & Hd).
    rewrite (H part Hin) in Hd. discriminate.
Qed.

Lemma supported_spec p :
  supported p = true <-> lower (suffix p) ∈ SUPPORTED_SUFFIXES.
Proof. unfold supported. apply bool_decide_eq_true. Qed.

(** Induction on directory trees, with the hypothesis for every child. *)
Lemma entry_tree_ind (P : entry -> Prop)
    (HF : forall n, P (File n))
    (HD : forall n cs, List.Forall P cs -> P (Dir n cs)) :
  forall e, P e.
Proof.
  fix ind 1. intros [n | n cs]; [apply HF | apply HD].
  induction cs as [| c cs IH]; constructor; [apply ind | exact IH].
Qed.

(** Every path of [rglob] extends the path it starts from. *)
Lemma rglob_entry_prefix e :
  forall prefix p b, In (p, b) (rglob_entry prefix e) ->
    exists rel, p = prefix ++ rel /\ rel <> [].
Proof.
  induction e as [n | n cs IH] using entry_tree_ind;
    intros prefix p b Hin.
  - destruct Hin as [[= <- <-] | []]. exists [n]. now split.
  - destruct Hin as [[= <- <-] | Hin]; [exists [n]; now split |].
    apply in_flat_map in Hin as (c & Hc & Hin).
    rewrite List.Forall_forall in IH.
    destruct (IH c Hc _ _ _ Hin) as (rel & -> & Hrel).
    exists (n :: rel). split; [now rewrite <- app_assoc | discriminate].
Qed.

Lemma rglob_prefix root children p b :
  In (p, b) (rglob root children) -> exists rel, p = root ++ rel /\ rel <> [].
Proof.
  unfold rglob. intros Hin. apply in_flat_map in Hin as (c & _ & Hin).
  now apply (rglob_entry_prefix c root p b).
Qed.

(** The segments of the root count as well: below a root with a dotted
    segment nothing is yielded. *)
Lemma discover_hidden_root root k part :
  In part root -> startswith_dot part = true -> discover root k = [].
Proof.
  intros Hin Hdot. destruct k as [| | children]; [reflexivity | reflexivity |].
  cbn [discover].
  destruct (List.filter selected (rglob root children)) as [| [p b] l] eqn:Hf;
    [reflexivity |].
  assert (Hp : In (p, b) (List.filter selected (rglob root children)))
    by (rewrite Hf; now left).
  apply filter_In in Hp as [Hp Hsel]. exfalso.
  apply rglob_prefix in Hp as (rel & -> & _).
  unfold selected in Hsel. cbn [fst snd] in Hsel.
  apply andb_true_iff in Hsel as [Hsel _].
  apply andb_true_iff in Hsel as [_ Hvis].
  rewrite visible_spec in Hvis.
  rewrite (Hvis part) in Hdot; [discriminate |].
  apply in_or_app. now left.
Qed.

(** C6 (as amended): [discover] yields a path exactly when it is a file
    below the root, no segment of the whole path (the last one, every
    ancestor directory and the segments of the root itself alike)
    starts with ['.'], and its lower-cased suffix is [".pdf"] or
    [".txt"]; a root that is missing or is not a directory yields
    nothing. *)
Theorem discover_spec (root : path) :
  discover root Missing = [] /\
  discover root NotADirectory = [] /\
  forall children p,
    In p (discover root (Directory children)) <->
    In (p, true) (rglob root children)
    /\ (forall part, In part p -> startswith_dot part = false)
    /\ lower (suffix p) ∈ SUPPORTED_SUFFIXES.
Proof.
  split; [reflexivity | split; [reflexivity |]]. intros children p.
  cbn [discover]. rewrite in_map_iff. split.
  - intros ([q b] & Hq & Hin). cbn in Hq. subst q.
    apply filter_In in Hin as [Hin Hsel].
    unfold selected in Hsel. cbn [fst snd] in Hsel.
    apply andb_true_iff in Hsel as [Hsel Hsup].
    apply andb_true_iff in Hsel as [Hfile Hvis]. subst b.
    split; [exact Hin |]. split; [now apply visible_spec | now apply supported_spec].
  - intros (Hin & Hvis & Hsup). exists (p, true). split; [reflexivity |].
    apply filter_In. split; [exact Hin |].
    unfold selected. cbn [fst snd].
    apply visible_spec in Hvis. apply supported_spec in Hsup.
    now rewrite Hvis, Hsup.
Qed.

(** C6 (as stated) fails: a supported, visible file below a hidden
    directory is not yielded. *)
Lemma hidden_ancestor_excludes_file :
  ~ (forall (root : path) children p,
       In (p, true) (rglob root children) ->
       (In p (discover root (Directory children)) <->
        startswith_dot (name p) = false
        /\ lower (suffix p) ∈ SUPPORTED_SUFFIXES)).
Proof.
  intros H.
  specialize (H [of_string "data"]
                [Dir (of_string ".cache") [File (of_string "a.txt")]]
                [of_string "data"; of_string ".cache"; of_string "a.txt"]).
  destruct H as [_ H]; [right; left; reflexivity |].
  apply H. split; [reflexivity |].
  apply supported_spec. vm_compute. reflexivity.
Qed.

End DiscoverFacts.

(** ** pipeline.py: the tail latency of Pipeline.bench *)

Module BenchFacts.
Import Bench.

Lemma index_is_floor_from_spec k :
  forall start len,
    index_is_floor_from k start = true ->
    start <= len < start + Z.of_nat k ->
    p95_index len = Some (19 * len / 20 - 1).
Proof.
  induction k as [| k IH]; intros start len Hall Hlen; [lia |].
  cbn [index_is_floor_from] in Hall. apply andb_true_iff in Hall as [H0 Hall].
  destruct (Z.eq_dec len start) as [-> | Hne].
  - unfold index_is_floor in H0. destruct (p95_index start); [| discriminate].
    apply Z.eqb_eq in H0. now subst.
  - apply (IH (start + 1)); [exact Hall | lia].
Qed.

Lemma index_checked : index_is_floor_from (Z.to_nat checked_counts) 0 = true.
Proof. vm_compute. reflexivity. Qed.

(** In binary64 arithmetic [int(0.95 * n)] is [floor(19 n / 20)] for
    every count that was evaluated. *)
Lemma p95_index_floor len :
  0 <= len < checked_counts ->
  p95_index len = Some (19 * len / 20 - 1).
Proof.
  intros H. apply (index_is_floor_from_spec (Z.to_nat checked_counts) 0);
    [apply index_checked | lia].
Qed.

(** [sorted] rearranges its argument into ascending order. *)
Lemma insert_perm x l : Permutation (insert x l) (x :: l).
Proof.
  induction l as [| y t IH]; cbn [insert]; [reflexivity |].
  destruct (Qle_bool x y); [reflexivity |].
  rewrite IH. apply perm_swap.
Qed.

Lemma sorted_perm l : Permutation (sorted l) l.
Proof.
  induction l as [| x t IH]; cbn [sorted]; [reflexivity |].
  rewrite insert_perm. now apply perm_skip.
Qed.

Lemma sorted_length l : List.length (sorted l) = List.length l.
Proof. apply Permutation_length, sorted_perm. Qed.

Lemma insert_hdrel a x l :
  (a <= x)%Q -> HdRel Qle a l -> HdRel Qle a (insert x l).
Proof.
  intros Hax Hl. destruct l as [| y t]; cbn [insert]; [now constructor |].
  destruct (Qle_bool x y); constructor; [exact Hax | now inversion Hl].
Qed.

Lemma insert_ascending x l : Sorted Qle l -> Sorted Qle (insert x l).
Proof.
  induction 1 as [| y t Ht IH Hy]; cbn [insert]; [repeat constructor |].
  destruct (Qle_bool x y) eqn:Hxy.
  - apply Qle_bool_iff in Hxy. repeat constructor; assumption.
  - constructor; [exact IH |]. apply insert_hdrel; [| exact Hy].
    apply Qlt_le_weak, Qnot_le_lt. intros H. apply Qle_bool_iff in H. congruence.
Qed.

Lemma sorted_ascending l : Sorted Qle (sorted l).
Proof.
  induction l as [| x t IH]; cbn [sorted]; [constructor |].
  now apply insert_ascending.
Qed.

(** [max] returns an item of the list that no item exceeds. *)
Lemma py_max_spec others :
  forall first,
    In (py_max first others) (first :: others) /\
    forall x, In x (first :: others) -> (x <= py_max first others)%Q.
Proof.
  unfold py_max.
  induction others as [| y t IH]; intros first; cbn [fold_left].
  - split; [now left |]. intros x [<- | []]. apply Qle_refl.
  - destruct (IH (if Qlt_bool first y then y else first)) as [Hin Hmax].
    split.
    + destruct Hin as [Hin | Hin]; [| now right; right].
      rewrite <- Hin. destruct (Qlt_bool first y); [right |]; now left.
    + intros x Hx.
      assert (Hm : ((if Qlt_bool first y then y else first)
                    <= fold_left (fun m y0 => if Qlt_bool m y0 then y0 else m) t
                         (if Qlt_bool first y then y else first))%Q)
        by (apply Hmax; now left).
      destruct Hx as [<- | [<- | Hx]]; [| | apply Hmax; now right].
      * eapply Qle_trans; [| exact Hm].
        unfold Qlt_bool. destruct (Qle_bool y first) eqn:Hle; cbn [negb].
        -- apply Qle_refl.
        -- apply Qlt_le_weak, Qnot_le_lt. intros H.
           apply Qle_bool_iff in H. congruence.
      * eapply Qle_trans; [| exact Hm].
        unfold Qlt_bool. destruct (Qle_bool y first) eqn:Hle; cbn [negb].
        -- now apply Qle_bool_iff.
        -- apply Qle_refl.
Qed.




End BenchFacts.

(** ** pipeline.py: Pipeline.run *)

Module PipelineFacts.
Import PyStr Checkpoints CheckpointsFacts Pipeline.

Section OneRun.
Context {Path Text Cls E Sc Sp : Type}.
Variable config : Config.
Variable hash_file : Path -> str + E.
Variable parse_file : Path -> Sp -> (Text + E) * Sp.
Variable worker_state : Sp.
Variable worker_random : nat -> Q.
Variable classify : Text -> Sc -> (Cls + E) * Sc.
Variable random : nat -> Q.
Variable write_ok : Path -> bool.
Variable mark_io : Path -> io_outcome.

Local Abbreviation State := (state Path Cls Sc).
Local Abbreviation Task := (@task Path Text E).
Local Abbreviation parse_retry :=
  (parse_with_retry config parse_file worker_state worker_random).
Local Abbreviation classify_retry := (classify_with_retry config classify random).
Local Abbreviation submit' :=
  (submit (Cls := Cls) (Sc := Sc) config hash_file parse_file worker_state
     worker_random).
Local Abbreviation collect_one' :=
  (collect_one (Text := Text) (E := E) config classify random write_ok mark_io).
Local Abbreviation collect' :=
  (collect (Text := Text) (E := E) config classify random write_ok mark_io).

(** The retry-wrapped stages always come back. *)
Lemma classify_retry_total text (w : Backoff.world Sc) :
  exists r, classify_retry text w = Some r.
Proof. apply BackoffFacts.wrapper_total. Qed.

Lemma parse_retry_total p : exists r, parse_retry p = Some r.
Proof.
  unfold parse_with_retry.
  destruct (BackoffFacts.wrapper_total parse_file (retries config)
              (base_delay config) retryable worker_random p
              (Backoff.mkWorld worker_state O (Clock.mk 0%Q []) O))
    as [[r w] ->].
  eauto.
Qed.

Lemma throttle_same (st : State) :
  same_files st (throttle st).
Proof.
  unfold throttle, same_files.
  destruct (RateLimiter.acquire _ _) as [rl w]. cbn. auto.
Qed.

Lemma same_files_trans (a b c : State) :
  same_files a b -> same_files b c -> same_files a c.
Proof. unfold same_files. intuition congruence. Qed.

(** The submission loop touches neither the ledger nor the output; every
    candidate is either already recorded or submitted. *)
Lemma submit_spec l :
  forall (st : State) (futs : list Task) st' futs',
    submit' l st futs = Some (inr (st', futs')) ->
    same_files st st' /\
    (forall t, In t futs -> In t futs') /\
    forall p, In p l ->
      exists h, hash_file p = inl h /\
        (is_processed (checkpoints st) h = true \/ exists r, In (p, h, r) futs').
Proof.
  induction l as [| p l IH]; intros st futs st' futs' Hs; cbn [submit] in Hs.
  - injection Hs as <- <-. split; [unfold same_files; auto |].
    split; [auto | intros p []].
  - destruct (hash_file p) as [h | e] eqn:Hh; [| discriminate].
    destruct (is_processed (checkpoints st) h) eqn:Hp.
    + destruct (IH _ _ _ _ Hs) as (Hsame & Hmono & Hall).
      split; [exact Hsame |]. split; [exact Hmono |].
      intros q [<- | Hq]; [exists h; auto | now apply Hall].
    + destruct (parse_retry p) as [r |]; [| discriminate].
      destruct (IH _ _ _ _ Hs) as (Hsame & Hmono & Hall).
      pose proof (throttle_same st) as Ht.
      split; [eapply same_files_trans; eassumption |].
      split; [intros t Hin; apply Hmono, in_or_app; now left |].
      intros q [<- | Hq].
      * exists h. split; [exact Hh |]. right. exists r.
        apply Hmono, in_or_app. right. now left.
      * destruct (Hall q Hq) as (h' & Hh' & [H' | H']); exists h'; split; auto.
        left. destruct Ht as (Hc & _). now rewrite Hc in H'.
Qed.


Lemma mark_processed_inl cm (d : disk) h io u cm' d' :
  mark_processed cm d h io = (inl u, cm', d') ->
  cm' = (mark_processed cm d h IoOk).1.2 /\ d' = (mark_processed cm d h IoOk).2.
Proof.
  unfold mark_processed, append_text.
  case_bool_decide; destruct io; cbn; intros [= <- <-] || intros [=]; auto.
Qed.


(** One iteration of the collection loop either counts an error, or
    counts a processed file after writing its record and marking its
    fingerprint. *)
Lemma collect_one_cases (st st' : State) p h fut :
  collect_one' st (p, h, fut) = Some st' ->
  (errors_total st' = S (errors_total st)
   /\ files_processed st' = files_processed st) \/
  (errors_total st' = errors_total st
   /\ files_processed st' = S (files_processed st)
   /\ checkpoints st' = (mark_processed (checkpoints st) (ledger st) h IoOk).1.2
   /\ ledger st' = (mark_processed (checkpoints st) (ledger st) h IoOk).2
   /\ exists c, output st' = output st ++ [mkRecord h p c]).
Proof.
  unfold collect_one. destruct fut as [text | e].
  - destruct (classify_retry text (main st)) as [[[c | e] w] |]; [| | discriminate].
    + destruct (write_ok p).
      * destruct (mark_processed (checkpoints st) (ledger st) h (mark_io p))
          as [[[u | e] cm] d] eqn:Hm; intros [= <-]; cbn.
        -- right. apply mark_processed_inl in Hm as [-> ->]. eauto 10.
        -- now left.
      * intros [= <-]. now left.
    + intros [= <-]. now left.
  - intros [= <-]. now left.
Qed.

Lemma collect_one_total (st : State) t : exists st', collect_one' st t = Some st'.
Proof.
  destruct t as [[p h] [text | e]]; unfold collect_one; [| eauto].
  destruct (classify_retry_total text (main st)) as [[[c | e] w] ->]; [| eauto].
  destruct (write_ok p); [| eauto].
  destruct (mark_processed _ _ _ _) as [[[u | e] cm] d]; eauto.
Qed.

(** The collection loop handles every future. *)
Lemma collect_total ts : forall st : State, exists st', collect' st ts = Some st'.
Proof.
  induction ts as [| t ts IH]; intros st; cbn [collect]; [eauto |].
  destruct (collect_one_total st t) as [st1 ->]. apply IH.
Qed.

Lemma collect_counts ts :
  forall st st' : State,
    collect' st ts = Some st' ->
    (files_processed st' + errors_total st'
     = files_processed st + errors_total st + List.length ts)%nat
    /\ (errors_total st <= errors_total st')%nat.
Proof.
  induction ts as [| [[p h] fut] ts IH]; intros st st' Hc; cbn [collect] in Hc.
  - injection Hc as <-. cbn. lia.
  - destruct (collect_one' st (p, h, fut)) as [st1 |] eqn:H1; [| discriminate].
    apply IH in Hc as [Hsum Hle]. cbn [List.length].
    apply collect_one_cases in H1 as [[He Hf] | (He & Hf & _)]; lia.
Qed.


(** C4: a task whose parse failed after its retries, or whose classify
    fails after its retries, is counted as an error; its iteration
    leaves the checkpoint set, the ledger and the output as they were;
    and the loop goes on with the remaining futures, all of which it
    handles. *)
Theorem failed_task_is_isolated (st : State) p h (r : Backoff.outcome Text E)
    (rest : list Task) :
  parse_retry p = Some r ->
  ((exists e, r = Backoff.Raise e) \/
   (exists text e w, r = Backoff.Return text
                     /\ classify_retry text (main st) = Some (Backoff.Raise e, w))) ->
  exists st' st'',
    collect_one' st (p, h, r) = Some st'
    /\ checkpoints st' = checkpoints st
    /\ ledger st' = ledger st
    /\ output st' = output st
    /\ files_processed st' = files_processed st
    /\ errors_total st' = S (errors_total st)
    /\ collect' st ((p, h, r) :: rest) = collect' st' rest
    /\ collect' st' rest = Some st''
    /\ (files_processed st'' + errors_total st''
        = files_processed st + errors_total st + S (List.length rest))%nat.
Proof.
  intros _ Hfail.
  assert (Hone : exists w, collect_one' st (p, h, r) = Some (failed st w)).
  { destruct Hfail as [[e ->] | (text & e & w & -> & Hc)].
    - exists (main st). reflexivity.
    - exists w. unfold collect_one. now rewrite Hc. }
  destruct Hone as [w Hone].
  destruct (collect_total rest (failed st w)) as [st'' Hrest].
  exists (failed st w), st''. repeat split; try assumption.
  - cbn [collect]. now rewrite Hone.
  - apply collect_counts in Hrest as [Hsum _]. cbn in Hsum |- *. lia.
Qed.

End OneRun.

Lemma failed_task_is_isolated_witness :
  exists st' st'',
    collect_one Examples.config Examples.classify Examples.no_jitter
      Examples.write_ok Examples.mark_io (Examples.constructed None [])
      (false, of_string "bb", Backoff.Raise tt) = Some st'
    /\ checkpoints st' = checkpoints (Examples.constructed None [])
    /\ ledger st' = ledger (Examples.constructed None [])
    /\ output st' = output (Examples.constructed None [])
    /\ files_processed st' = files_processed (Examples.constructed None [])
    /\ errors_total st' = S (errors_total (Examples.constructed None []))
    /\ collect Examples.config Examples.classify Examples.no_jitter
         Examples.write_ok Examples.mark_io (Examples.constructed None [])
         [(false, of_string "bb", Backoff.Raise tt);
          (true, of_string "aa", Backoff.Return 8%nat)]
       = collect Examples.config Examples.classify Examples.no_jitter
           Examples.write_ok Examples.mark_io st'
           [(true, of_string "aa", Backoff.Return 8%nat)]
    /\ collect Examples.config Examples.classify Examples.no_jitter
         Examples.write_ok Examples.mark_io st'
         [(true, of_string "aa", Backoff.Return 8%nat)] = Some st''
    /\ (files_processed st'' + errors_total st''
        = files_processed (Examples.constructed None [])
          + errors_total (Examples.constructed None []) + 2)%nat.
Proof.
  apply (failed_task_is_isolated Examples.config Examples.parse_file_bad tt
           Examples.no_jitter Examples.classify Examples.no_jitter
           Examples.write_ok Examples.mark_io
           (Examples.constructed None []) false (of_string "bb")
           (Backoff.Raise tt)
           [(true, of_string "aa", Backoff.Return 8%nat)]).
  - reflexivity.
  - left. exists tt. reflexivity.
Defined.

Section TwoRuns.
Context {Path Text Cls E Sc Sp : Type}.
(** The input files do not change: one [hash_file] for both runs. *)
Variable hash_file : Path -> str + E.
(** Everything else may differ from the first run to the second. *)
Variables config1 config2 : Config.
Variables parse_file1 parse_file2 : Path -> Sp -> (Text + E) * Sp.
Variables worker_state1 worker_state2 : Sp.
Variables worker_random1 worker_random2 : nat -> Q.
Variables classify1 classify2 : Text -> Sc -> (Cls + E) * Sc.
Variables random1 random2 : nat -> Q.
Variables write_ok1 write_ok2 : Path -> bool.
Variables mark_io1 mark_io2 : Path -> io_outcome.
Variables as_completed1 as_completed2 :
  list (@task Path Text E) -> list (@task Path Text E).

Local Abbreviation run1 :=
  (run config1 hash_file parse_file1 worker_state1 worker_random1 classify1
     random1 write_ok1 mark_io1 as_completed1).
Local Abbreviation run2 :=
  (run config2 hash_file parse_file2 worker_state2 worker_random2 classify2
     random2 write_ok2 mark_io2 as_completed2).



End TwoRuns.



End PipelineFacts.


(* ===================================================================== *)
(** * Further properties *)
(* ===================================================================== *)

(** ** utils/checkpoints.py *)

Module CheckpointsExtra.
Import PyStr PyStrFacts Checkpoints CheckpointsFacts.

(** What [lstrip] leaves starts with a code point that is no whitespace. *)
Lemma lstrip_starts s c t : lstrip s = c :: t -> isspace c = false.
Proof.
  induction s as [| x s IH]; cbn [lstrip]; [discriminate |].
  destruct (isspace x) eqn:Hx; [exact IH |]. now intros [= <- <-].
Qed.

Lemma lstrip_keeps_last a c :
  isspace c = false -> exists a', lstrip (a ++ [c]) = a' ++ [c].
Proof.
  intros Hc. induction a as [| x a IH]; cbn [app lstrip].
  - rewrite Hc. now exists [].
  - destruct (isspace x); [exact IH | now exists (x :: a)].
Qed.

Lemma strip_head s c t : strip s = c :: t -> isspace c = false.
Proof.
  unfold strip, rstrip. destruct (lstrip s) as [| x u] eqn:Hl; [discriminate |].
  pose proof (lstrip_starts _ _ _ Hl) as Hx. cbn [rev].
  destruct (lstrip_keeps_last (rev u) x Hx) as [a' ->].
  rewrite rev_app_distr. cbn [rev app]. now intros [= <- _].
Qed.

Lemma strip_last s t c : strip s = t ++ [c] -> isspace c = false.
Proof.
  unfold strip, rstrip. intros H.
  apply (f_equal (@rev N)) in H. rewrite rev_involutive, rev_app_distr in H.
  cbn [rev app] in H. now apply lstrip_starts in H.
Qed.

(** X1: a fingerprint that was marked is not written again: the second
    [mark_processed] returns without touching the ledger, even when the
    disk would refuse the write. *)
Theorem mark_processed_twice cm (d : disk) (h : str) (io : io_outcome) :
  mark_processed (mark_processed cm d h IoOk).1.2 (mark_processed cm d h IoOk).2 h io
  = (inl tt, (mark_processed cm d h IoOk).1.2, (mark_processed cm d h IoOk).2).
Proof.
  pose proof (mark_processed_adds cm d h) as Hin.
  unfold mark_processed at 1. now rewrite bool_decide_eq_true_2.
Qed.

Lemma mark_processed_appends cm (d : disk) (h : str) (io : io_outcome) :
  (exists s, default [] (mark_processed cm d h io).2 = default [] d ++ s) /\
  (forall x, x ∈ processed cm -> x ∈ processed (mark_processed cm d h io).1.2) /\
  (forall x, x ∈ processed (mark_processed cm d h io).1.2 ->
             x ∈ processed cm \/ x = h).
Proof.
  unfold mark_processed, append_text. case_bool_decide.
  - split; [exists []; now rewrite app_nil_r | auto].
  - destruct io; cbn; (split; [eauto |]); split; intros x Hx; auto.
    + apply elem_of_union. now right.
    + apply elem_of_union in Hx as [Hx | Hx]; [right | now left].
      now apply elem_of_singleton in Hx.
Qed.

(** X2: [mark_processed] only ever appends: whatever the outcome of the
    write, the old content of the ledger is a prefix of the new content,
    the in-memory set loses nothing and gains at most the fingerprint
    marked. *)
Theorem mark_processed_append_only cm (d : disk) (h : str) (io : io_outcome) :
  (exists s, default [] (mark_processed cm d h io).2 = default [] d ++ s) /\
  (forall x, x ∈ processed cm -> x ∈ processed (mark_processed cm d h io).1.2) /\
  (forall x, x ∈ processed (mark_processed cm d h io).1.2 ->
             x ∈ processed cm \/ x = h).
Proof. apply mark_processed_appends. Qed.

Lemma init_append_line d h :
  well_terminated d = true -> is_fingerprint h = true ->
  processed (init (Some (default [] d ++ h ++ [LF])))
  = {[ h ]} ∪ processed (init d).
Proof.
  intros Ht Hf. cbn [init processed].
  rewrite file_lines_append by (try apply well_terminated_default; assumption).
  rewrite fold_left_app. cbn [fold_left]. unfold load_line at 1.
  rewrite strip_fingerprint_line by exact Hf.
  destruct h as [| c t]; [now apply fingerprint_inv in Hf |].
  f_equal. destruct d as [old |]; reflexivity.
Qed.

(** X3: recovery is exact.  On a ledger that was absent, empty or
    terminated, after any sequence of successful marks of fingerprints,
    a freshly constructed manager holds exactly the set the running
    manager holds. *)
Theorem restart_recovers_exactly (d : disk) (hs : list str) :
  well_terminated d = true ->
  Forall (fun h => is_fingerprint h = true) hs ->
  processed (init (mark_all (init d, d) hs).2)
  = processed (mark_all (init d, d) hs).1
  /\ well_terminated (mark_all (init d, d) hs).2 = true.
Proof.
  intros Ht Hall. induction hs as [| h hs IH] using rev_ind.
  - now split.
  - apply Forall_app in Hall as [Hall Hh]. inversion Hh as [| ? ? Hf _]; subst.
    destruct (IH Hall) as [IHeq IHt]. clear IH.
    rewrite mark_all_snoc. cbn zeta. cbn [fst snd].
    rewrite mark_processed_ok. case_bool_decide as Hin; cbn [fst snd].
    + now split.
    + split; [| apply terminated_app_lf].
      rewrite init_append_line by assumption. cbn [processed]. now rewrite IHeq.
Qed.

Lemma restart_recovers_exactly_witness :
  processed (init (mark_all (init None, None) [of_string "ab"; of_string "cd"]).2)
  = processed (mark_all (init None, None) [of_string "ab"; of_string "cd"]).1
  /\ well_terminated (mark_all (init None, None) [of_string "ab"; of_string "cd"]).2
     = true.
Proof.
  apply (restart_recovers_exactly None [of_string "ab"; of_string "cd"]).
  - reflexivity.
  - repeat constructor.
Defined.

(** X4: every entry a freshly constructed manager holds is non-empty and
    neither starts nor ends with whitespace; the empty string and
    strings with surrounding whitespace are never reported processed
    after a restart. *)
Theorem loaded_entries_are_stripped (d : disk) (x : str) :
  is_processed (init d) x = true ->
  x <> []
  /\ (forall c t, x = c :: t -> isspace c = false)
  /\ (forall t c, x = t ++ [c] -> isspace c = false).
Proof.
  intros H. apply is_processed_true in H.
  destruct d as [content |]; [| cbn in H; now apply not_elem_of_empty in H].
  apply init_spec in H as (Hne & line & _ & Hs).
  split; [exact Hne |]. split.
  - intros c t ->. now apply (strip_head line c t).
  - intros t c ->. now apply (strip_last line t c).
Qed.

Lemma loaded_entries_are_stripped_witness :
  of_string "ab" <> []
  /\ (forall c t, of_string "ab" = c :: t -> isspace c = false)
  /\ (forall t c, of_string "ab" = t ++ [c] -> isspace c = false).
Proof.
  apply (loaded_entries_are_stripped
           (Some (of_string "  ab " ++ [LF])) (of_string "ab")).
  vm_compute. reflexivity.
Defined.

End CheckpointsExtra.

(** ** utils/backoff.py *)

Module BackoffExtra.
Import Backoff.

Section RetryExtra.
Context {Args A E St : Type}.
Variable func : Args -> St -> (A + E) * St.
Variable retries : Z.
Variable base_delay : Q.
Variable retryable : E -> bool.
Variable random : nat -> Q.

Local Abbreviation loop := (wrapper_loop func retries base_delay retryable random).
Local Abbreviation fails := (fails_with func retryable).


(** X6: with a non-negative base delay and jitter draws in [[0, 1]],
    the sleep before retry number [i] lasts at least
    [base_delay * 2^i] and at most that plus [min(0.1, base_delay * 2^i)]
    seconds: delays double, and the jitter never adds more than 100 ms
    nor more than the delay itself. *)
Theorem wrapper_delays fuel :
  forall attempts args (w w' : world St) r,
    (0 <= base_delay)%Q ->
    (forall n, (0 <= random n)%Q /\ (random n <= 1)%Q) ->
    loop fuel attempts args w = Some (r, w') ->
    exists ds,
      Clock.slept (clock w') = Clock.slept (clock w) ++ ds
      /\ forall i d, nth_error ds i = Some d ->
           (base_delay * 2 ^ (attempts + Z.of_nat i) <= d)%Q
           /\ (d <= base_delay * 2 ^ (attempts + Z.of_nat i)
                    + Qmin (1 # 10) (base_delay * 2 ^ (attempts + Z.of_nat i)))%Q.
Proof.
  intros attempts args w w' r Hb Hr. revert attempts w.
  induction fuel as [| fuel IH]; intros attempts w Hl; [discriminate |].
  assert (Hnil : exists ds : list Q,
             Clock.slept (clock w) = Clock.slept (clock w) ++ ds
             /\ forall i d, nth_error ds i = Some d ->
                  (base_delay * 2 ^ (attempts + Z.of_nat i) <= d)%Q
                  /\ (d <= base_delay * 2 ^ (attempts + Z.of_nat i)
                           + Qmin (1 # 10)
                               (base_delay * 2 ^ (attempts + Z.of_nat i)))%Q).
  { exists []. split; [now rewrite app_nil_r |]. intros [| i] d; discriminate. }
  cbn [wrapper_loop] in Hl.
  destruct (func args (op_state w)) as [[v | e] s].
  - injection Hl as <- <-. exact Hnil.
  - destruct (retryable e); [| injection Hl as <- <-; exact Hnil].
    destruct (attempts >=? retries); [injection Hl as <- <-; exact Hnil |].
    cbn [uniform] in Hl. apply IH in Hl as (ds & Hs & Hds).
    cbn [sleep clock Clock.sleep Clock.slept draws] in Hs.
    set (delay := (base_delay * 2 ^ attempts)%Q) in *.
    set (u := random (draws w)) in *.
    exists ((delay + (0 + (Qmin (1 # 10) delay - 0) * u))%Q :: ds).
    split; [now rewrite Hs, <- app_assoc |].
    intros [| i] d Hd.
    + injection Hd as <-. rewrite Z.add_0_r. fold delay.
      assert (Hdelay : (0 <= delay)%Q).
      { unfold delay. apply Qmult_le_0_compat; [exact Hb |].
        now apply Qpower_0_le. }
      destruct (Hr (draws w)) as [Hu0 Hu1]. fold u in Hu0, Hu1.
      destruct (Q.min_spec (1 # 10) delay) as [[Hm ->] | [Hm ->]]; split; nra.
    + cbn [nth_error] in Hd. apply Hds in Hd.
      replace (attempts + Z.of_nat (S i)) with (attempts + 1 + Z.of_nat i) by lia.
      exact Hd.
Qed.


End RetryExtra.


Lemma wrapper_delays_witness :
  exists ds,
    Clock.slept (clock MoreExamples.flaky_run.2)
    = Clock.slept (clock Examples.fresh_world) ++ ds
    /\ forall i d, nth_error ds i = Some d ->
         ((1 # 5) * 2 ^ (0 + Z.of_nat i) <= d)%Q
         /\ (d <= (1 # 5) * 2 ^ (0 + Z.of_nat i)
                  + Qmin (1 # 10) ((1 # 5) * 2 ^ (0 + Z.of_nat i)))%Q.
Proof.
  apply (wrapper_delays Examples.flaky 3 (1 # 5) Examples.every_error
           Examples.no_jitter 4 0 tt Examples.fresh_world
           MoreExamples.flaky_run.2 MoreExamples.flaky_run.1).
  - discriminate.
  - intros n. split; discriminate.
  - vm_compute. reflexivity.
Defined.


End BackoffExtra.

(** ** utils/rate_limiter.py *)

Module RateLimiterExtra.
Import RateLimiter RateLimiterFacts.

Local Open Scope Q_scope.






End RateLimiterExtra.

(** ** stages/discover.py *)

Module DiscoverExtra.
Import PyStr Discover DiscoverFacts.

Lemma rfind_dot_app s t :
  rfind_dot (s ++ t)
  = match rfind_dot t with
    | Some j => Some (List.length s + j)%nat
    | None => rfind_dot s
    end.
Proof.
  induction s as [| c s IH]; cbn [app rfind_dot List.length].
  - now destruct (rfind_dot t).
  - rewrite IH. destruct (rfind_dot t); [reflexivity |].
    now destruct (rfind_dot s).
Qed.

Lemma rfind_dot_bound n i : rfind_dot n = Some i -> (i < List.length n)%nat.
Proof.
  revert i. induction n as [| c n IH]; intros i; cbn [rfind_dot List.length];
    [discriminate |].
  destruct (rfind_dot n) as [j |].
  - intros [= <-]. specialize (IH j eq_refl). lia.
  - destruct (c =? DOT)%N; [intros [= <-]; lia | discriminate].
Qed.

Lemma lower_char_dot c : lower_char c = DOT -> c = DOT.
Proof.
  unfold lower_char, DOT.
  destruct ((65 <=? c) && (c <=? 90))%N eqn:H; [| auto].
  apply andb_true_iff in H as [H1 H2]. apply N.leb_le in H1. lia.
Qed.

Lemma lower_char_letter c x :
  lower_char c = x -> (97 <= x <= 122)%N -> c <> DOT.
Proof.
  unfold lower_char, DOT.
  destruct ((65 <=? c) && (c <=? 90))%N eqn:H; intros <- Hx ->; [discriminate | lia].
Qed.

(** A suffix that lower-cases to a supported one is a dot followed by
    three letters. *)
Lemma supported_suffix_shape ext :
  lower ext ∈ SUPPORTED_SUFFIXES ->
  exists a b c, ext = [DOT; a; b; c] /\ a <> DOT /\ b <> DOT /\ c <> DOT.
Proof.
  unfold SUPPORTED_SUFFIXES. intros H.
  apply elem_of_union in H as [H | H]; apply elem_of_singleton in H;
    destruct ext as [| d [| a [| b [| c [| e ext]]]]]; try discriminate;
    cbn in H; injection H as Hd Ha Hb Hc;
    apply lower_char_dot in Hd; subst d;
    exists a, b, c; (split; [reflexivity |]);
    repeat split; eapply lower_char_letter; try eassumption; lia.
Qed.

(** X9: the segments of the root count as hidden markers too: below a
    root one of whose segments starts with ['.'] (a hidden directory, or
    the ['..'] of a relative path) [discover] yields nothing. *)
Theorem hidden_root_yields_nothing (root : path) (k : root_kind) (part : str) :
  In part root -> startswith_dot part = true -> discover root k = [].
Proof. apply discover_hidden_root. Qed.

Lemma hidden_root_yields_nothing_witness :
  discover [of_string ".."; of_string "data"]
    (Directory [File (of_string "a.txt")]) = [].
Proof.
  apply (hidden_root_yields_nothing [of_string ".."; of_string "data"]
           (Directory [File (of_string "a.txt")]) (of_string "..")).
  - now left.
  - reflexivity.
Defined.

(** X10: the extension test accepts exactly the names made of a
    non-empty stem followed by [.pdf] or [.txt] in any letter case; a
    name that is only an extension, such as [.pdf], is not accepted. *)
Theorem supported_names (p : path) :
  supported p = true <->
  exists stem ext,
    name p = stem ++ ext /\ stem <> [] /\ lower ext ∈ SUPPORTED_SUFFIXES.
Proof.
  rewrite supported_spec. unfold suffix. split.
  - intros H. destruct (rfind_dot (name p)) as [i |] eqn:Hi;
      [| now apply supported_suffix_shape in H as (? & ? & ? & ? & _)].
    destruct ((0 <? Z.of_nat i)
              && (Z.of_nat i <? Z.of_nat (List.length (name p)) - 1)) eqn:Hc;
      [| now apply supported_suffix_shape in H as (? & ? & ? & ? & _)].
    apply andb_true_iff in Hc as [H0 _]. apply Z.ltb_lt in H0.
    exists (take i (name p)), (drop i (name p)).
    split; [now rewrite take_drop |]. split; [| exact H].
    apply rfind_dot_bound in Hi.
    intros Ht. apply (f_equal (@List.length N)) in Ht.
    rewrite length_take in Ht. cbn in Ht. lia.
  - intros (stem & ext & Hn & Hstem & Hext).
    destruct (supported_suffix_shape ext Hext) as (a & b & c & -> & Ha & Hb & Hc).
    rewrite Hn, rfind_dot_app.
    assert (Hr : rfind_dot [DOT; a; b; c] = Some O).
    { cbn [rfind_dot]. apply N.eqb_neq in Ha, Hb, Hc. now rewrite Ha, Hb, Hc. }
    rewrite Hr, Nat.add_0_r. rewrite length_app. cbn [List.length].
    replace ((0 <? Z.of_nat (List.length stem))
             && (Z.of_nat (List.length stem)
                 <? Z.of_nat (List.length stem + 4) - 1)) with true.
    + now rewrite drop_app_length.
    + symmetry. apply andb_true_iff. split; apply Z.ltb_lt; [| lia].
      destruct stem; [congruence | cbn [List.length]; lia].
Qed.

End DiscoverExtra.

(** ** pipeline.py: the tail latency of Pipeline.bench *)

Module BenchExtra.
Import Bench BenchFacts.

Lemma filter_length_perm (f : Q -> bool) l l' :
  Permutation l l' ->
  List.length (List.filter f l) = List.length (List.filter f l').
Proof.
  induction 1 as [| x l l' _ IH | x y l | l l' l'' _ IH1 _ IH2]; cbn [List.filter].
  - reflexivity.
  - destruct (f x); cbn [List.length]; now rewrite IH.
  - now destruct (f x), (f y).
  - now rewrite IH1.
Qed.

Lemma filter_all (f : Q -> bool) l :
  (forall x, In x l -> f x = true) -> List.filter f l = l.
Proof.
  induction l as [| x l IH]; intros H; cbn [List.filter]; [reflexivity |].
  rewrite (H x) by now left. f_equal. apply IH. intros y Hy. apply H. now right.
Qed.

(** In an ascending list the items up to a position do not exceed the
    item at that position. *)
Lemma ascending_nth s :
  Sorted Qle s ->
  forall k v j x, (j <= k)%nat ->
    nth_error s k = Some v -> nth_error s j = Some x -> (x <= v)%Q.
Proof.
  intros Hs. apply Sorted_StronglySorted in Hs; [| exact Qle_trans].
  induction Hs as [| a s _ IH Ha]; intros k v j x Hjk Hk Hj.
  - now destruct k.
  - destruct j as [| j]; destruct k as [| k]; cbn [nth_error] in Hk, Hj.
    + injection Hk as <-. injection Hj as <-. apply Qle_refl.
    + injection Hj as <-. apply nth_error_In in Hk.
      rewrite List.Forall_forall in Ha. now apply Ha.
    + lia.
    + apply (IH k v j x); [lia | assumption | assumption].
Qed.

Lemma count_up_to s v :
  forall k,
    (k < List.length s)%nat ->
    (forall j x, (j <= k)%nat -> nth_error s j = Some x -> Qle_bool x v = true) ->
    (k + 1 <= List.length (List.filter (fun x => Qle_bool x v) s))%nat.
Proof.
  induction s as [| a s IH]; intros k Hk Hall; [cbn in Hk; lia |].
  cbn [List.filter]. rewrite (Hall O a) by (cbn; auto with arith).
  cbn [List.length] in Hk |- *. destruct k as [| k]; [lia |].
  specialize (IH k ltac:(lia)).
  assert (Hrest : forall j x, (j <= k)%nat -> nth_error s j = Some x ->
                              Qle_bool x v = true).
  { intros j x Hj Hx. apply (Hall (S j) x); [lia | exact Hx]. }
  specialize (IH Hrest). lia.
Qed.

(** X11: the benchmark's p95 is always one of the recorded latencies,
    and at least [floor(0.95 * count)] of the recorded latencies do not
    exceed it (for every sample count that was evaluated); the
    computation does not raise. *)
Theorem p95_rank (latencies : list Q) :
  0 < Z.of_nat (List.length latencies) < checked_counts ->
  exists v,
    p95 latencies = Some v
    /\ In v latencies
    /\ 19 * Z.of_nat (List.length latencies) / 20
       <= Z.of_nat (List.length
                      (List.filter (fun x => Qle_bool x v) latencies)).
Proof.
  intros Hlen. destruct latencies as [| first others]; [cbn in Hlen; lia |].
  set (l := first :: others) in *. unfold p95. fold l.
  destruct (20 <=? Z.of_nat (List.length l)) eqn:H20.
  - apply Z.leb_le in H20.
    rewrite sorted_length, p95_index_floor by lia.
    set (n := Z.of_nat (List.length l)) in *.
    assert (Hq : 19 <= 19 * n / 20 <= n).
    { split; [apply Z.div_le_lower_bound | apply Z.div_le_upper_bound]; lia. }
    replace (Z.max 0 (19 * n / 20 - 1)) with (19 * n / 20 - 1) by lia.
    destruct (nth_error (sorted l) (Z.to_nat (19 * n / 20 - 1))) as [v |] eqn:Hv.
    + exists v. split; [reflexivity |]. split.
      * apply (Permutation_in _ (sorted_perm l)). now apply nth_error_In in Hv.
      * rewrite <- (filter_length_perm _ _ _ (sorted_perm l)).
        assert (Hk : (Z.to_nat (19 * n / 20 - 1) < List.length (sorted l))%nat)
          by (apply nth_error_Some; congruence).
        pose proof (count_up_to (sorted l) v _ Hk) as Hc.
        assert (Hall : forall j x, (j <= Z.to_nat (19 * n / 20 - 1))%nat ->
                         nth_error (sorted l) j = Some x -> Qle_bool x v = true).
        { intros j x Hj Hx. apply Qle_bool_iff.
          apply (ascending_nth _ (sorted_ascending l) _ v j x Hj Hv Hx). }
        specialize (Hc Hall). lia.
    + apply nth_error_None in Hv. rewrite sorted_length in Hv. fold n in Hv. lia.
  - apply Z.leb_gt in H20. exists (py_max first others).
    destruct (py_max_spec others first) as [Hin Hmax].
    split; [reflexivity |]. split; [exact Hin |].
    rewrite filter_all by (intros x Hx; apply Qle_bool_iff; now apply Hmax).
    pose proof (Z.div_le_upper_bound (19 * Z.of_nat (List.length l)) 20
                  (Z.of_nat (List.length l))). lia.
Qed.

Lemma p95_rank_witness :
  exists v,
    p95 [3; 7; 2]%Q = Some v
    /\ In v [3; 7; 2]%Q
    /\ 19 * Z.of_nat (List.length [3; 7; 2]%Q) / 20
       <= Z.of_nat (List.length
                      (List.filter (fun x => Qle_bool x v) [3; 7; 2]%Q)).
Proof.
  apply (p95_rank [3; 7; 2]%Q). vm_compute. split; reflexivity.
Defined.

End BenchExtra.

(** ** pipeline.py: Pipeline.run *)

Module PipelineExtra.
Import PyStr Checkpoints CheckpointsFacts Pipeline PipelineFacts.

Section RunExtra.
Context {Path Text Cls E Sc Sp : Type}.
Variable config : Config.
Variable hash_file : Path -> str + E.
Variable parse_file : Path -> Sp -> (Text + E) * Sp.
Variable worker_state : Sp.
Variable worker_random : nat -> Q.
Variable classify : Text -> Sc -> (Cls + E) * Sc.
Variable random : nat -> Q.
Variable write_ok : Path -> bool.
Variable mark_io : Path -> io_outcome.
Variable as_completed : list (@task Path Text E) -> list (@task Path Text E).
Hypothesis as_completed_perm : forall fs, Permutation (as_completed fs) fs.

Local Abbreviation State := (state Path Cls Sc).
Local Abbreviation Task := (@task Path Text E).
Local Abbreviation parse_retry :=
  (parse_with_retry config parse_file worker_state worker_random).
Local Abbreviation submit' :=
  (submit (Cls := Cls) (Sc := Sc) config hash_file parse_file worker_state
     worker_random).
Local Abbreviation collect_one' :=
  (collect_one (Text := Text) (E := E) config classify random write_ok mark_io).
Local Abbreviation collect' :=
  (collect (Text := Text) (E := E) config classify random write_ok mark_io).
Local Abbreviation run' :=
  (run config hash_file parse_file worker_state worker_random classify random
     write_ok mark_io as_completed).

(** The candidates that are submitted: those whose fingerprint is not in
    the checkpoint set. *)
Local Abbreviation pending cm :=
  (fun p => match hash_file p with
            | inl h => negb (is_processed cm h)
            | inr _ => false
            end).

Lemma throttle_submitted (st : State) : submitted (throttle st) = S (submitted st).
Proof. unfold throttle. now destruct (RateLimiter.acquire _ _). Qed.

(** What the submission loop adds to the futures. *)
Lemma submit_effects l :
  forall (st : State) (futs : list Task) st' futs',
    submit' l st futs = Some (inr (st', futs')) ->
    exists newf,
      futs' = futs ++ newf
      /\ submitted st' = (submitted st + List.length newf)%nat
      /\ List.length newf = List.length (List.filter (pending (checkpoints st)) l)
      /\ forall p h r, In (p, h, r) newf ->
           In p l /\ hash_file p = inl h
           /\ is_processed (checkpoints st) h = false.
Proof.
  induction l as [| p l IH]; intros st futs st' futs' Hs; cbn [submit] in Hs.
  - injection Hs as <- <-. exists []. rewrite app_nil_r. cbn [List.length List.filter].
    split; [reflexivity |]. split; [lia |]. split; [reflexivity |].
    intros q g r [].
  - cbn [List.filter]. destruct (hash_file p) as [h | e] eqn:Hh; [| discriminate].
    destruct (is_processed (checkpoints st) h) eqn:Hp; cbn [negb].
    + destruct (IH _ _ _ _ Hs) as (newf & -> & Hsub & Hlen & Hall).
      exists newf. split; [reflexivity |]. split; [exact Hsub |].
      split; [exact Hlen |].
      intros q g r Hin. destruct (Hall q g r Hin) as (H1 & H2 & H3).
      split; [now right | now split].
    + destruct (parse_retry p) as [r |]; [| discriminate].
      destruct (IH _ _ _ _ Hs) as (newf & -> & Hsub & Hlen & Hall).
      destruct (throttle_same st) as (Hcm & _).
      rewrite throttle_submitted in Hsub. rewrite Hcm in Hlen, Hall.
      exists ((p, h, r) :: newf). rewrite <- app_assoc. cbn [app List.length].
      split; [reflexivity |]. split; [lia |]. split; [lia |].
      intros q g r' [[= <- <- <-] | Hin]; [split; [now left | now split] |].
      destruct (Hall q g r' Hin) as (H1 & H2 & H3).
      split; [now right | now split].
Qed.

(** The submission loop ends normally when every candidate can be
    hashed. *)
Lemma submit_completes l :
  forall (st : State) (futs : list Task),
    (forall p, In p l -> exists h, hash_file p = inl h) ->
    exists st' futs', submit' l st futs = Some (inr (st', futs')).
Proof.
  induction l as [| p l IH]; intros st futs Hall; cbn [submit]; [eauto |].
  destruct (Hall p (or_introl eq_refl)) as [h ->].
  assert (Hrest : forall q, In q l -> exists h, hash_file q = inl h)
    by (intros q Hq; apply Hall; now right).
  destruct (is_processed (checkpoints st) h); [now apply IH |].
  destruct (parse_retry_total config parse_file worker_state worker_random p)
    as [r ->].
  now apply IH.
Qed.

(** The first candidate that cannot be hashed ends the loop with its
    error. *)
Lemma submit_aborts pre :
  forall (st : State) (futs : list Task) p post e,
    (forall q, In q pre -> exists h, hash_file q = inl h) ->
    hash_file p = inr e ->
    submit' (pre ++ p :: post) st futs = Some (inl e).
Proof.
  induction pre as [| q pre IH]; intros st futs p post e Hall Hp; cbn [app submit].
  - now rewrite Hp.
  - destruct (Hall q (or_introl eq_refl)) as [h ->].
    assert (Hrest : forall x, In x pre -> exists h, hash_file x = inl h)
      by (intros x Hx; apply Hall; now right).
    destruct (is_processed (checkpoints st) h); [now apply IH |].
    destruct (parse_retry_total config parse_file worker_state worker_random q)
      as [r ->].
    now apply IH.
Qed.

(** One iteration of the collection loop, in full. *)
Lemma collect_one_effects (st st' : State) p h fut :
  collect_one' st (p, h, fut) = Some st' ->
  submitted st' = submitted st
  /\ (files_processed st' + errors_total st'
      = files_processed st + errors_total st + 1)%nat
  /\ (errors_total st <= errors_total st')%nat
  /\ ((output st' = output st /\ checkpoints st' = checkpoints st
       /\ ledger st' = ledger st /\ errors_total st' = S (errors_total st))
      \/ exists c io,
           output st' = output st ++ [mkRecord h p c]
           /\ checkpoints st'
              = (mark_processed (checkpoints st) (ledger st) h io).1.2
           /\ ledger st' = (mark_processed (checkpoints st) (ledger st) h io).2).
Proof.
  unfold collect_one. destruct fut as [text | e].
  - destruct (classify_with_retry config classify random text (main st))
      as [[[c | e] w] |]; [| | discriminate].
    + destruct (write_ok p).
      * destruct (mark_processed (checkpoints st) (ledger st) h (mark_io p))
          as [[[u | e] cm] d] eqn:Hm; intros [= <-]; cbn;
          (repeat split; try lia); right; exists c, (mark_io p);
          rewrite Hm; auto.
      * intros [= <-]. cbn. repeat split; try lia. left. auto.
    + intros [= <-]. cbn. repeat split; try lia. left. auto.
  - intros [= <-]. cbn. repeat split; try lia. left. auto.
Qed.

(** The collection loop, in full. *)
Lemma collect_effects ts :
  forall st st' : State,
    collect' st ts = Some st' ->
    submitted st' = submitted st
    /\ (files_processed st' + errors_total st'
        = files_processed st + errors_total st + List.length ts)%nat
    /\ (errors_total st <= errors_total st')%nat
    /\ (exists s, default [] (ledger st') = default [] (ledger st) ++ s)
    /\ (forall x, x ∈ processed (checkpoints st) ->
                  x ∈ processed (checkpoints st'))
    /\ (forall x, x ∈ processed (checkpoints st') ->
                  x ∈ processed (checkpoints st)
                  \/ exists p fut, In (p, x, fut) ts)
    /\ exists new,
         output st' = output st ++ new
         /\ (List.length new <= List.length ts)%nat
         /\ (errors_total st' = errors_total st ->
             List.length new = List.length ts)
         /\ forall r, In r new -> exists fut, In (path r, id r, fut) ts.
Proof.
  induction ts as [| [[p h] fut] ts IH]; intros st st' Hc; cbn [collect] in Hc.
  - injection Hc as <-. cbn [List.length].
    repeat split; try lia; auto.
    + exists []. now rewrite app_nil_r.
    + exists []. rewrite app_nil_r. repeat split; auto. intros r [].
  - destruct (collect_one' st (p, h, fut)) as [st1 |] eqn:H1; [| discriminate].
    apply collect_one_effects in H1 as (Hs1 & Hn1 & He1 & Hcase).
    destruct (IH _ _ Hc) as (Hs & Hn & He & [s Hl] & Hgrow & Hfrom & new & Ho & Hlen & Hclean & Hrec).
    cbn [List.length].
    split; [congruence |]. split; [lia |]. split; [lia |].
    destruct Hcase as [(Hout & Hcm & Hd & Herr) | (c & io & Hout & Hcm & Hd)].
    + rewrite Hcm in Hgrow, Hfrom. rewrite Hd in Hl. rewrite Hout in Ho.
      split; [eauto |]. split; [exact Hgrow |]. split.
      * intros x Hx. destruct (Hfrom x Hx) as [? | (q & f & Hin)]; [now left |].
        right. exists q, f. now right.
      * exists new. repeat split; [exact Ho | lia | lia |].
        intros r Hr. destruct (Hrec r Hr) as [f Hf]. exists f. now right.
    + destruct (CheckpointsExtra.mark_processed_appends (checkpoints st) (ledger st) h io)
        as ([s1 Hpre] & Hkeep & Honly).
      rewrite <- Hcm in Hkeep, Honly. rewrite <- Hd in Hpre.
      split; [exists (s1 ++ s); now rewrite Hl, Hpre, app_assoc |].
      split; [auto |]. split.
      * intros x Hx. destruct (Hfrom x Hx) as [Hx1 | (q & f & Hin)].
        -- destruct (Honly x Hx1) as [? | ->]; [now left |].
           right. exists p, fut. now left.
        -- right. exists q, f. now right.
      * exists (mkRecord h p c :: new). rewrite Ho, Hout, <- app_assoc.
        cbn [app List.length]. repeat split; try lia.
        intros r [<- | Hr]; [exists fut; now left |].
        destruct (Hrec r Hr) as [f Hf]. exists f. now right.
Qed.



Lemma run_phases l (st st' : State) :
  run' l st = Some (inr st') ->
  exists sta futs,
    submit' l st [] = Some (inr (sta, futs))
    /\ collect' sta (as_completed futs) = Some st'.
Proof.
  unfold run.
  destruct (submit' l st []) as [[e | [sta futs]] |]; [discriminate | | discriminate].
  destruct (collect' sta (as_completed futs)) as [stb |] eqn:Hc; [| discriminate].
  intros [= <-]. eauto.
Qed.

(** X12: [run] returns normally exactly when [hash_file] succeeds on
    every candidate; otherwise the error of the first candidate that
    cannot be hashed leaves [run] during submission, before any future
    is collected: hashing is outside the per-file error handling. *)
Theorem run_raises_only_on_hashing l (st : State) :
  ((forall p, In p l -> exists h, hash_file p = inl h) ->
   exists st', run' l st = Some (inr st')) /\
  (forall pre p post e,
      l = pre ++ p :: post ->
      (forall q, In q pre -> exists h, hash_file q = inl h) ->
      hash_file p = inr e ->
      run' l st = Some (inl e)).
Proof.
  split.
  - intros Hall. unfold run.
    destruct (submit_completes l st [] Hall) as (sta & futs & ->).
    destruct (collect_total config classify random write_ok mark_io
                (as_completed futs) sta) as [st' ->].
    eauto.
  - intros pre p post e -> Hpre Hp. unfold run.
    now rewrite (submit_aborts pre st [] p post e Hpre Hp).
Qed.

(** X13: a run submits exactly the candidates whose fingerprint is not
    in the checkpoint set when it starts (two candidates with the same
    content are both submitted), and every submitted file ends either
    as one processed file or as one error; when no error is counted,
    exactly one record per submitted file is appended to the output. *)
Theorem run_accounting l (st st' : State) :
  run config hash_file parse_file worker_state worker_random classify random
    write_ok mark_io as_completed l st = Some (inr st') ->
  submitted st'
  = (submitted st + List.length (List.filter (pending (checkpoints st)) l))%nat
  /\ (files_processed st' + errors_total st'
      = files_processed st + errors_total st
        + List.length (List.filter (pending (checkpoints st)) l))%nat
  /\ (errors_total st' = errors_total st ->
      List.length (output st')
      = (List.length (output st)
         + List.length (List.filter (pending (checkpoints st)) l))%nat).
Proof.
  intros Hrun. apply run_phases in Hrun as (sta & futs & Hsub & Hcol).
  pose proof (submit_spec _ _ _ _ _ _ _ _ _ _ Hsub)
    as ((_ & _ & Hout & Herr & Hfp) & _ & _).
  apply submit_effects in Hsub as (newf & Hf & Hs & Hlen & _).
  cbn [app] in Hf. subst futs.
  apply collect_effects in Hcol
    as (Hs' & Hn & _ & _ & _ & _ & new & Ho & _ & Hclean & _).
  rewrite (Permutation_length (as_completed_perm newf)) in Hn, Hclean.
  split; [lia |]. split; [lia |].
  intros He. rewrite Ho, length_app, Hclean, Hout by lia. lia.
Qed.


(** X15: a run only appends to the ledger, and its checkpoint set only
    grows, by nothing but fingerprints of this run's candidates. *)
Theorem run_ledger_grows l (st st' : State) :
  run' l st = Some (inr st') ->
  (exists s, default [] (ledger st') = default [] (ledger st) ++ s)
  /\ (forall x, x ∈ processed (checkpoints st) -> x ∈ processed (checkpoints st'))
  /\ (forall x, x ∈ processed (checkpoints st') ->
        x ∈ processed (checkpoints st)
        \/ exists p, In p l /\ hash_file p = inl x).
Proof.
  intros Hrun. apply run_phases in Hrun as (sta & futs & Hsub & Hcol).
  pose proof (submit_spec _ _ _ _ _ _ _ _ _ _ Hsub)
    as ((Hcm & Hd & _ & _ & _) & _ & _).
  apply submit_effects in Hsub as (newf & Hf & _ & _ & Hall).
  cbn [app] in Hf. subst futs.
  apply collect_effects in Hcol
    as (_ & _ & _ & Hl & Hgrow & Hfrom & _).
  rewrite Hcm in Hgrow, Hfrom. rewrite Hd in Hl.
  split; [exact Hl |]. split; [exact Hgrow |].
  intros x Hx. destruct (Hfrom x Hx) as [? | (p & fut & Hin)]; [now left |].
  right. exists p.
  apply (Permutation_in _ (as_completed_perm newf)) in Hin.
  destruct (Hall _ _ _ Hin) as (H1 & H2 & _). now split.
Qed.

End RunExtra.

Lemma run_raises_only_on_hashing_witness :
  (exists st', Examples.run [true; false] MoreExamples.start = Some (inr st'))
  /\ MoreExamples.run_bad [true; false] MoreExamples.start = Some (inl tt).
Proof.
  split.
  - apply (run_raises_only_on_hashing Examples.config Examples.hash_file
             Examples.parse_file tt Examples.no_jitter Examples.classify
             Examples.no_jitter Examples.write_ok Examples.mark_io
             Examples.in_order [true; false] MoreExamples.start).
    intros [] _; eexists; reflexivity.
  - apply (run_raises_only_on_hashing Examples.config MoreExamples.hash_file_bad
             Examples.parse_file tt Examples.no_jitter Examples.classify
             Examples.no_jitter Examples.write_ok Examples.mark_io
             Examples.in_order [true; false] MoreExamples.start)
      with (pre := [true]) (p := false) (post := []).
    + reflexivity.
    + intros q [<- | []]. eexists; reflexivity.
    + reflexivity.
Defined.


Lemma run_accounting_witness :
  submitted MoreExamples.finish
  = (submitted MoreExamples.start
     + List.length
         (List.filter
            (fun p => match Examples.hash_file p with
                      | inl h => negb (is_processed (checkpoints MoreExamples.start) h)
                      | inr _ => false
                      end) [true; false]))%nat.
Proof.
  destruct (run_accounting Examples.config Examples.hash_file Examples.parse_file
              tt Examples.no_jitter Examples.classify Examples.no_jitter
              Examples.write_ok Examples.mark_io Examples.in_order
              (fun fs => Permutation_refl fs)
              [true; false] MoreExamples.start MoreExamples.finish)
    as (H & _ & _).
  - vm_compute. reflexivity.
  - exact H.
Defined.


Lemma run_ledger_grows_witness :
  exists s, default [] (ledger MoreExamples.finish)
            = default [] (ledger MoreExamples.start) ++ s.
Proof.
  destruct (run_ledger_grows Examples.config Examples.hash_file
              Examples.parse_file tt Examples.no_jitter Examples.classify
              Examples.no_jitter Examples.write_ok Examples.mark_io
              Examples.in_order (fun fs => Permutation_refl fs)
              [true; false] MoreExamples.start MoreExamples.finish)
    as (H & _ & _).
  - vm_compute. reflexivity.
  - exact H.
Defined.

End PipelineExtra.

(** ** stages/classify.py *)

Module ClassifyExtra.
Import PyStr Classify.

Lemma split_from_clean s :
  forall word,
    Forall (fun c => isspace c = false) word ->
    Forall (fun w => w <> [] /\ Forall (fun c => isspace c = false) w)
      (split_from word s).
Proof.
  induction s as [| c t IH]; intros word Hw; cbn [split_from].
  - destruct word as [| x word]; constructor; [| constructor].
    split; [| now apply Forall_rev].
    intros Hr. apply (f_equal (@List.length N)) in Hr.
    rewrite length_rev in Hr. discriminate.
  - destruct (isspace c) eqn:Hc.
    + destruct word as [| x word]; [now apply IH |].
      constructor; [| now apply IH].
      split; [| now apply Forall_rev].
      intros Hr. apply (f_equal (@List.length N)) in Hr.
      rewrite length_rev in Hr. discriminate.
    + apply IH. now constructor.
Qed.

Lemma split_from_app a :
  forall word c b,
    isspace c = true ->
    split_from word (a ++ c :: b) = split_from word a ++ split b.
Proof.
  induction a as [| x a IH]; intros word c b Hc; cbn [app split_from].
  - rewrite Hc. now destruct word.
  - destruct (isspace x).
    + destruct word; cbn [app]; now rewrite IH.
    + now apply IH.
Qed.

Lemma split_from_word w :
  forall word,
    Forall (fun c => isspace c = false) w ->
    split_from word w
    = match rev w ++ word with
      | [] => []
      | _ => [rev (rev w ++ word)]
      end.
Proof.
  induction w as [| c w IH]; intros word Hw; cbn [split_from rev app].
  - reflexivity.
  - inversion Hw as [| ? ? Hc Hw']; subst. rewrite Hc.
    rewrite IH by exact Hw'. now rewrite <- app_assoc.
Qed.

Lemma split_from_length s :
  forall word,
    (List.length (split_from word s)
     <= List.length s + match word with [] => 0 | _ => 1 end)%nat.
Proof.
  induction s as [| c t IH]; intros word; cbn [split_from List.length].
  - destruct word; cbn; lia.
  - destruct (isspace c).
    + specialize (IH []). cbv iota in IH. destruct word; cbn [List.length]; lia.
    + specialize (IH (c :: word)). cbv iota in IH. destruct word; lia.
Qed.

(** X16: the words [text.split()] returns are never empty and contain no
    whitespace. *)
Theorem split_words_clean (text : str) :
  Forall (fun w => w <> [] /\ Forall (fun c => isspace c = false) w) (split text).
Proof. apply split_from_clean. constructor. Qed.

(** X17: splitting distributes over any whitespace code point, so runs
    of whitespace, leading and trailing whitespace and line breaks add
    no words; a non-empty text without whitespace is one word. *)
Theorem split_at_whitespace :
  (forall a c b, isspace c = true -> split (a ++ c :: b) = split a ++ split b)
  /\ (forall w, w <> [] -> Forall (fun c => isspace c = false) w -> split w = [w]).
Proof.
  split.
  - intros a c b Hc. now apply split_from_app.
  - intros w Hne Hw. unfold split. rewrite split_from_word by exact Hw.
    rewrite app_nil_r, rev_involutive.
    destruct (rev w) eqn:Hr; [| reflexivity].
    apply (f_equal (@List.length N)) in Hr. rewrite length_rev in Hr.
    destruct w; [congruence | discriminate].
Qed.

Lemma split_at_whitespace_witness :
  split (of_string "quick" ++ 32%N :: of_string "fox")
  = split (of_string "quick") ++ split (of_string "fox")
  /\ split (of_string "fox") = [of_string "fox"].
Proof.
  destruct split_at_whitespace as [H1 H2]. split.
  - apply (H1 (of_string "quick") 32%N (of_string "fox")). reflexivity.
  - apply (H2 (of_string "fox")); [discriminate |]. repeat constructor.
Defined.

(** X18: the word count the classifier reports lies between 0 and the
    length of the text, it adds up over a whitespace separator, and a
    text with fewer code points than the threshold is labelled
    ["short"]. *)
Theorem classify_counts (self : DummyClassifier) :
  (forall text, 0 <= words (classify self text) <= Z.of_nat (List.length text))
  /\ (forall a c b, isspace c = true ->
        words (classify self (a ++ c :: b))
        = words (classify self a) + words (classify self b))
  /\ (forall text, Z.of_nat (List.length text) < short_threshold self ->
        label (classify self text) = of_string "short").
Proof.
  assert (Hlen : forall text,
             0 <= Z.of_nat (List.length (split text)) <= Z.of_nat (List.length text)).
  { intros text. pose proof (split_from_length text []) as H. cbv iota in H.
    unfold split. lia. }
  split; [exact Hlen |]. split.
  - intros a c b Hc. cbn [classify words].
    unfold split. rewrite split_from_app by exact Hc.
    rewrite length_app. unfold split. lia.
  - intros text Ht. cbn [classify label].
    replace (Z.of_nat (List.length (split text)) <? short_threshold self) with true;
      [reflexivity |].
    symmetry. apply Z.ltb_lt. specialize (Hlen text). lia.
Qed.

Lemma classify_counts_witness :
  label (classify default_classifier
           (of_string "quick brown fox jumps over the lazy dog"))
  = of_string "short".
Proof.
  destruct (classify_counts default_classifier) as (_ & _ & H).
  apply H. vm_compute. reflexivity.
Defined.

End ClassifyExtra.

(** ** stages/write.py *)

Module WriteExtra.
Import PyStr PyStrFacts Checkpoints Write.

(** Code points from the space on. *)
Local Abbreviation printable := (fun c : N => (32 <= c)%N).











Lemma dict_get_set d k v k' :
  dict_get (dict_set d k v) k'
  = if bool_decide (k = k') then Some v else dict_get d k'.
Proof.
  induction d as [| [k0 v0] d IH]; cbn [dict_set dict_get].
  - reflexivity.
  - destruct (bool_decide (k0 = k)) eqn:H0; cbn [dict_get].
    + apply bool_decide_eq_true in H0. subst k0.
      now destruct (bool_decide (k = k')).
    + rewrite IH. apply bool_decide_eq_false in H0.
      destruct (bool_decide (k0 = k')) eqn:H1; [| reflexivity].
      apply bool_decide_eq_true in H1. subst k0.
      now rewrite bool_decide_eq_false_2.
Qed.

Lemma dict_get_update src :
  forall d k,
    dict_get (dict_update d src) k
    = match dict_get (rev src) k with
      | Some v => Some v
      | None => dict_get d k
      end.
Proof.
  unfold dict_update.
  induction src as [| [k0 v0] src IH] using rev_ind; intros d k.
  - reflexivity.
  - rewrite fold_left_app, rev_app_distr. cbn [fold_left rev app dict_get fst snd].
    rewrite dict_get_set. destruct (bool_decide (k0 = k)); [reflexivity | apply IH].
Qed.

(** X20: in the record the pipeline writes, the fields of the
    classification take precedence: a key of the classification named
    ["id"] or ["path"] replaces the fingerprint or the path; every other
    lookup finds the classification's value, else the fingerprint under
    ["id"] and the path under ["path"].  With the result of
    [DummyClassifier.classify] the record is id, path, label, words, in
    this order. *)
Theorem result_record_fields (file_hash path : str) :
  (forall cls k,
      dict_get (result_record file_hash path cls) k
      = match dict_get (rev cls) k with
        | Some v => Some v
        | None =>
            dict_get [(of_string "id", JStr file_hash);
                      (of_string "path", JStr path)] k
        end)
  /\ (forall c,
        result_record file_hash path (classification_dict c)
        = [(of_string "id", JStr file_hash); (of_string "path", JStr path);
           (of_string "label", JStr (Classify.label c));
           (of_string "words", JInt (Classify.words c))]).
Proof.
  split; [intros cls k; apply dict_get_update | reflexivity].
Qed.

End WriteExtra.

(** ** utils/hashing.py *)

Module HashingExtra.
Import PyStr Hashing.

Section HashFileExtra.
Context {H : Type}.
Variable sha256 : H.
Variable update : H -> bytes -> H.
Variable hexdigest : H -> str.
(** What [hashlib] documents of [update]: repeated calls are equivalent
    to one call with the concatenation of the arguments. *)
Hypothesis update_nil : forall h, update h [] = h.
Hypothesis update_app : forall h a b, update (update h a) b = update h (a ++ b).

Local Abbreviation loop := (hash_loop update).




End HashFileExtra.




End HashingExtra.

(** ** utils/config.py *)

Module ConfigExtra.
Import PyStr ConfigMerge.

Section MergeExtra.
Context {A : Type}.

Local Abbreviation items := (list (str * value A)).

Lemma get_set (d : items) k v k' :
  get (set d k v) k' = if bool_decide (k = k') then Some v else get d k'.
Proof.
  induction d as [| [k0 v0] d IH]; cbn [set get].
  - reflexivity.
  - destruct (bool_decide (k0 = k)) eqn:H0; cbn [get].
    + apply bool_decide_eq_true in H0. subst k0.
      now destruct (bool_decide (k = k')).
    + rewrite IH. apply bool_decide_eq_false in H0.
      destruct (bool_decide (k0 = k')) eqn:H1; [| reflexivity].
      apply bool_decide_eq_true in H1. subst k0.
      now rewrite bool_decide_eq_false_2.
Qed.

Lemma get_absent (d : items) k : ~ In k (List.map fst d) -> get d k = None.
Proof.
  induction d as [| [k0 v0] d IH]; intros Hk; cbn [get]; [reflexivity |].
  cbn [List.map fst In] in Hk.
  rewrite bool_decide_eq_false_2 by tauto. apply IH. tauto.
Qed.

Lemma set_absent (d : items) k v :
  ~ In k (List.map fst d) -> set d k v = d ++ [(k, v)].
Proof.
  induction d as [| [k0 v0] d IH]; intros Hk; cbn [set app]; [reflexivity |].
  cbn [List.map fst In] in Hk.
  rewrite bool_decide_eq_false_2 by tauto. f_equal. apply IH. tauto.
Qed.

Lemma merged_absent (v : value A) : merged None v = v.
Proof. now destruct v. Qed.

Lemma deep_update_cons (d : items) k v rest :
  _deep_update d ((k, v) :: rest)
  = _deep_update (set d k (merged (get d k) v)) rest.
Proof. reflexivity. Qed.

(** X23: looking a key up in the merged configuration.  A key the user
    file does not mention keeps its default; a key it gives replaces the
    default, except that two dictionaries under the same key are merged
    by the same rule, recursively. *)
Theorem deep_update_get (src : items) :
  NoDup (List.map fst src) ->
  (forall dst k,
      get (_deep_update dst src) k
      = match get src k with
        | None => get dst k
        | Some v => Some (merged (get dst k) v)
        end)
  /\ (forall old sub : items,
        merged (Some (Dict old)) (Dict sub) = Dict (_deep_update old sub))
  /\ (forall (old : option (value A)) (a : A), merged old (Scalar a) = Scalar a)
  /\ (forall (a : A) (sub : items),
        merged (Some (Scalar a)) (Dict sub) = Dict sub)
  /\ (forall sub : items, merged None (Dict sub) = Dict sub).
Proof.
  intros Hnd. split; [| repeat split; reflexivity].
  induction src as [| [k0 v0] rest IH]; intros dst k; [reflexivity |].
  cbn [List.map fst] in Hnd. apply NoDup_cons in Hnd as [Hk0 Hnd].
  rewrite deep_update_cons, (IH Hnd). cbn [get]. rewrite get_set.
  destruct (bool_decide (k0 = k)) eqn:Hk.
  - apply bool_decide_eq_true in Hk. subst k0.
    rewrite get_absent; [reflexivity |]. now rewrite <- list_elem_of_In.
  - reflexivity.
Qed.

(** X24: merging a dictionary whose keys are new appends its items, in
    order, after the defaults; in particular merging into an empty
    dictionary gives the user dictionary back. *)
Theorem deep_update_disjoint (src : items) :
  forall dst,
    NoDup (List.map fst (dst ++ src)) ->
    _deep_update dst src = dst ++ src.
Proof.
  induction src as [| [k0 v0] rest IH]; intros dst Hnd.
  - now rewrite app_nil_r.
  - assert (Hk0 : ~ In k0 (List.map fst dst)).
    { rewrite map_app in Hnd. cbn [List.map fst] in Hnd.
      apply NoDup_app in Hnd as (_ & Hd & _).
      intros Hin. apply list_elem_of_In in Hin. apply (Hd k0 Hin). now left. }
    rewrite deep_update_cons, get_absent, merged_absent, set_absent by exact Hk0.
    rewrite IH; [now rewrite <- app_assoc |].
    now rewrite <- app_assoc.
Qed.

End MergeExtra.

Lemma deep_update_get_witness :
  get (_deep_update
         [(of_string "a", Scalar 1%nat);
          (of_string "b", Dict [(of_string "c", Scalar 2%nat)])]
         [(of_string "b", Dict [(of_string "d", Scalar 3%nat)])])
      (of_string "b")
  = match get [(of_string "b", Dict [(of_string "d", Scalar 3%nat)])]
            (of_string "b") with
    | None =>
        get [(of_string "a", Scalar 1%nat);
             (of_string "b", Dict [(of_string "c", Scalar 2%nat)])]
          (of_string "b")
    | Some v =>
        Some (merged
                (get [(of_string "a", Scalar 1%nat);
                      (of_string "b", Dict [(of_string "c", Scalar 2%nat)])]
                   (of_string "b")) v)
    end.
Proof.
  destruct (deep_update_get
              [(of_string "b", Dict [(of_string "d", Scalar 3%nat)])]) as [H _].
  - refine (bool_decide_unpack _ _). vm_compute. exact I.
  - apply H.
Defined.

Lemma deep_update_disjoint_witness :
  _deep_update [(of_string "a", Scalar 1%nat)] [(of_string "b", Scalar 2%nat)]
  = [(of_string "a", Scalar 1%nat)] ++ [(of_string "b", Scalar 2%nat)].
Proof.
  apply (deep_update_disjoint [(of_string "b", Scalar 2%nat)]
           [(of_string "a", Scalar 1%nat)]).
  refine (bool_decide_unpack _ _). vm_compute. exact I.
Defined.

End ConfigExtra.
